(** * Draft Synthesizer: paragraph splitting, draft and final-manuscript stores

    A shallow embedding of the state-handling code of [src/App.tsx],
    [src/components/FinalColumn.tsx] and the AI gateway service, with the
    properties the specification states about them.

    JavaScript strings are sequences of UTF-16 code units; regular
    expressions without the [u] flag and [String.prototype.trim] work on
    code units, so a string is modelled as a list of code units. *)

From Stdlib Require Import NArith Lia.
From stdpp Require Import base option list gmap sets strings pretty sorting.
From Equations Require Import Equations.

Set Warnings "-register-all".

(** * Part I: the program *)

(** ** Strings *)

Abbreviation jsstring := (list N).

(** A literal of the source, written in ASCII. *)
Definition lit (s : string) : jsstring :=
  Ascii.N_of_ascii <$> String.list_ascii_of_string s.

(** [`${n}`] for a non-negative integer. *)
Definition show (n : N) : jsstring := lit (pretty n).

(** [Boolean(s)] for a string: only the empty string is falsy. *)
Definition truthy (s : jsstring) : bool :=
  match s with [] => false | _ :: _ => true end.

Definition LF : N := 10.

Definition is_lf (c : N) : bool := (c =? LF)%N.

(** The class [\s] of ECMAScript, which is also what [trim] strips:
    WhiteSpace (TAB, VT, FF, SP, NBSP, ZWNBSP and the category Zs) together
    with LineTerminator (LF, CR, LS, PS). *)
Definition is_space (c : N) : bool :=
  ((9 <=? c) && (c <=? 13) || (c =? 32) || (c =? 160) || (c =? 5760)
   || (8192 <=? c) && (c <=? 8202) || (c =? 8232) || (c =? 8233)
   || (c =? 8239) || (c =? 8287) || (c =? 12288) || (c =? 65279))%N.

Fixpoint take_while (p : N → bool) (s : jsstring) : jsstring :=
  match s with
  | c :: r => if p c then c :: take_while p r else []
  | [] => []
  end.

Fixpoint drop_while (p : N → bool) (s : jsstring) : jsstring :=
  match s with
  | c :: r => if p c then drop_while p r else s
  | [] => []
  end.

(** [s.trim()] *)
Definition trim (s : jsstring) : jsstring :=
  reverse (drop_while is_space (reverse (drop_while is_space s))).

(** ** The separator [/\n\s*\n+/]

    A backtracking matcher for the three pieces of the pattern.  Each
    function is given the input at the current position and returns what is
    left after a match, or [None] when there is no match at that position. *)

(** [\n+], greedy; nothing follows it in the pattern, so the longest run is
    the match. *)
Definition nl_plus (s : jsstring) : option jsstring :=
  match s with
  | c :: r => if is_lf c then Some (drop_while is_lf r) else None
  | [] => None
  end.

(** [\s*] followed by the continuation [k]: greedy, so one more white-space
    unit is tried first, and the matcher backs off to [k] at the current
    position when the longer attempt fails. *)
Fixpoint ws_star_then (k : jsstring → option jsstring) (s : jsstring)
  : option jsstring :=
  match s with
  | c :: r =>
      if is_space c
      then match ws_star_then k r with
           | Some rest => Some rest
           | None => k s
           end
      else k s
  | [] => k s
  end.

Definition sep_match (s : jsstring) : option jsstring :=
  match s with
  | c :: r => if is_lf c then ws_star_then nl_plus r else None
  | [] => None
  end.

(** The part of the input left after a match is shorter than the input: the
    scan below terminates. *)

Lemma drop_while_length p s : length (drop_while p s) ≤ length s.
Proof. induction s as [|c r IH]; simpl; [lia|]. destruct (p c); simpl; lia. Qed.

Lemma nl_plus_length s rest : nl_plus s = Some rest → length rest < length s.
Proof.
  destruct s as [|c r]; simpl; [done|].
  destruct (is_lf c); [|done]. intros [= <-].
  pose proof (drop_while_length is_lf r). lia.
Qed.

Lemma ws_star_then_length s rest :
  ws_star_then nl_plus s = Some rest → length rest < length s.
Proof.
  induction s as [|c r IH]; cbn [ws_star_then].
  - done.
  - destruct (is_space c).
    + destruct (ws_star_then nl_plus r) as [x|] eqn:E.
      * intros [= <-]. specialize (IH eq_refl). simpl. lia.
      * apply nl_plus_length.
    + apply nl_plus_length.
Qed.

Lemma sep_match_length s rest : sep_match s = Some rest → length rest < length s.
Proof.
  destruct s as [|c r]; cbn [sep_match]; [done|].
  destruct (is_lf c); [|done].
  intros H. apply ws_star_then_length in H. simpl. lia.
Qed.

(** ** [String.prototype.split] with the separator pattern

    The scan of the ECMAScript algorithm: [acc] holds (reversed) the units
    read since the end of the last match; at each position the pattern is
    tried; a match closes the current piece and the scan resumes after the
    match.  The pattern cannot match the empty string, so the step that
    skips an empty match never applies. *)

Equations split_from (acc : jsstring) (s : jsstring) : list jsstring
  by wf (length s) lt :=
  split_from acc [] := [reverse acc];
  split_from acc (c :: r) with Logic.inspect (sep_match (c :: r)) := {
    | exist _ (Some rest) H => reverse acc :: split_from [] rest
    | exist _ None _ => split_from (c :: acc) r }.
Next Obligation. apply (sep_match_length (c :: r)) in H. simpl in H. lia. Qed.

(** [text.split(/\n\s*\n+/)] *)
Definition split_paragraphs (text : jsstring) : list jsstring :=
  split_from [] text.

(** ** Thrown errors

    A call that may throw (or an [async] function, whose promise may reject)
    returns a [Res]: [Ok v] for a value, [Throw e] for an error that reaches
    the caller. *)

Inductive exn :=
  | SyntaxError
  | TypeError
  | ExternalError (msg : jsstring).

Inductive Res (A : Type) :=
  | Ok (a : A)
  | Throw (e : exn).

Arguments Ok {A} a.
Arguments Throw {A} e.

Global Instance Res_ret : MRet Res := λ A a, Ok a.

Global Instance Res_bind : MBind Res := λ A B k m,
  match m with
  | Ok a => k a
  | Throw e => Throw e
  end.

(** [try { body } catch (e) { handler }] *)
Definition try_catch {A} (body : Res A) (handler : exn → Res A) : Res A :=
  match body with
  | Ok a => Ok a
  | Throw e => handler e
  end.

(** ** Data model ([types.ts]) *)

Record Paragraph := mkParagraph {
  id : jsstring;
  text : jsstring;
  sourceDraftIndex : option nat;
  sourceParaIndex : option nat;
  originalId : option jsstring }.

Global Instance Paragraph_eq_dec : EqDecision Paragraph.
Proof. solve_decision. Defined.

(** [draftId] is the field [id] of a draft.  [id] and [title] are declared
    mandatory, but an object built by spreading a missing array slot
    ([{...undefined, paragraphs}]) has neither, so every field but
    [paragraphs] is optional here. *)
Record ManuscriptDraft := mkDraft {
  draftId : option nat;
  title : option jsstring;
  customTitle : option jsstring;
  paragraphs : list Paragraph }.

(** An array of objects: [None] is a hole or [undefined]. *)
Definition js_get {A} (l : list (option A)) (i : nat) : option A :=
  mjoin (l !! i).

(** [l[i] = v]: inside the array the slot is replaced; past its end the
    array is extended, leaving holes before the new slot. *)
Definition js_set {A} (i : nat) (v : A) (l : list (option A))
  : list (option A) :=
  if decide (i < length l) then <[i := Some v]> l
  else l ++ replicate (i - length l) None ++ [Some v].

(** [l.splice(i, 0, x)] on a copy, for [i >= 0]: the start is clamped to
    the length. *)
Definition splice_in {A} (i : nat) (x : A) (l : list A) : list A :=
  take i l ++ x :: drop i l.

(** [a || b] for an optional string [a] and a string [b]. *)
Definition or_else (a : option jsstring) (b : jsstring) : jsstring :=
  match a with
  | Some s => if truthy s then s else b
  | None => b
  end.

(** [Boolean(a)] for an optional string. *)
Definition Boolean (a : option jsstring) : bool :=
  match a with
  | Some s => truthy s
  | None => false
  end.

Record AppState := mkState {
  drafts : list (option ManuscriptDraft);
  finalParagraphs : list Paragraph;
  dismissedParagraphIds : gset jsstring }.

(** One reading of the clock and of the random source: [Date.now()] in
    milliseconds and the text of [`${Math.random()}`]. *)
Record Entropy := mkEntropy {
  now : N;
  random : jsstring }.

(** ** The Paragraph Splitter *)

(** [`draft-${draftIndex}-${pIdx}-${Date.now()}-${Math.random()}`] *)
Definition draft_para_id (draftIndex pIdx : nat) (e : Entropy) : jsstring :=
  lit "draft-" ++ show (N.of_nat draftIndex) ++ lit "-"
    ++ show (N.of_nat pIdx) ++ lit "-" ++ show (now e) ++ lit "-" ++ random e.

(** [es pIdx] is what the clock and the random source give while the
    paragraph at position [pIdx] is built. *)
Definition parseTextToParagraphs (es : nat → Entropy) (text : jsstring)
    (draftIndex : nat) : list Paragraph :=
  imap (λ pIdx paraText,
          let id := draft_para_id draftIndex pIdx (es pIdx) in
          {| id := id;
             text := paraText;
             sourceDraftIndex := Some draftIndex;
             sourceParaIndex := Some pIdx;
             originalId := Some id |})
       (filter (λ p, p ≠ []) (trim <$> split_paragraphs text)).

(** ** Draft store *)

(** [{ ...d, paragraphs: ps }] *)
Definition with_paragraphs (d : option ManuscriptDraft) (ps : list Paragraph)
  : ManuscriptDraft :=
  match d with
  | Some d => {| draftId := draftId d; title := title d;
                 customTitle := customTitle d; paragraphs := ps |}
  | None => {| draftId := None; title := None;
               customTitle := None; paragraphs := ps |}
  end.

Definition updateDraftContent (es : nat → Entropy) (idx : nat)
    (text : jsstring) (st : AppState) : AppState :=
  let prev := drafts st in
  let next :=
    js_set idx (with_paragraphs (js_get prev idx)
                  (parseTextToParagraphs es text idx)) prev in
  {| drafts := next;
     finalParagraphs := finalParagraphs st;
     dismissedParagraphIds := dismissedParagraphIds st |}.

(** ** Final manuscript store *)

(** [`final-${Date.now()}-${Math.random()}`] *)
Definition final_id (e : Entropy) : jsstring :=
  lit "final-" ++ show (now e) ++ lit "-" ++ random e.

(** The handler builds [newPara] from one reading [e] of the clock and the
    random source, and updates the final manuscript [prev] with it. *)
Definition addParagraphToFinal (e : Entropy) (paragraph : Paragraph)
    (atIndex : option nat) (prev : list Paragraph) : list Paragraph :=
  let newPara :=
    {| id := final_id e;
       text := text paragraph;
       sourceDraftIndex := sourceDraftIndex paragraph;
       sourceParaIndex := sourceParaIndex paragraph;
       originalId := Some (or_else (originalId paragraph) (id paragraph)) |} in
  match atIndex with
  | Some i => splice_in i newPara prev
  | None => prev ++ [newPara]
  end.

(** [new Set(finalParagraphs.map(p => p.originalId).filter(Boolean))] *)
Definition reflectedIds (finalParagraphs : list Paragraph) : gset jsstring :=
  list_to_set
    (omap (λ o, o)
       (filter (λ o, Boolean o = true) (originalId <$> finalParagraphs))).

(** The handler closes over [drafts] and [reflectedIds] of the render it
    was created in, whose state is [render]: [sourceDraft] and [toAdd] are
    computed from them when the handler is called, and reading
    [.paragraphs] of a missing draft throws.  The update it queues runs
    later, on the manuscript [prev] as it is then; [prev] is the manuscript
    of [render] unless another update was queued since that render.  [es i]
    is what the clock and the random source give while entry [i] is
    built. *)
Definition addAllFromDraft_queued (es : nat → Entropy) (draftIdx : nat)
    (render : AppState) (prev : list Paragraph) : Res (list Paragraph) :=
  match js_get (drafts render) draftIdx with
  | None => Throw TypeError
  | Some sourceDraft =>
      let reflected := reflectedIds (finalParagraphs render) in
      let toAdd := filter (λ p, id p ∉ reflected) (paragraphs sourceDraft) in
      let newEntries :=
        imap (λ i p,
                {| id := final_id (es i);
                   text := text p;
                   sourceDraftIndex := sourceDraftIndex p;
                   sourceParaIndex := sourceParaIndex p;
                   originalId := Some (id p) |}) toAdd in
      Ok (prev ++ newEntries)
  end.

(** One call of the handler of the render whose state is [st], with no
    other update queued between that render and the call: the update runs on
    the manuscript of [st]. *)
Definition addAllFromDraft (es : nat → Entropy) (draftIdx : nat)
    (st : AppState) : Res AppState :=
  next ← addAllFromDraft_queued es draftIdx st (finalParagraphs st);
  Ok {| drafts := drafts st;
        finalParagraphs := next;
        dismissedParagraphIds := dismissedParagraphIds st |}.

Definition removeAllFromDraft (draftIdx : nat) (st : AppState) : AppState :=
  {| drafts := drafts st;
     finalParagraphs :=
       filter (λ p, sourceDraftIndex p ≠ Some draftIdx) (finalParagraphs st);
     dismissedParagraphIds := dismissedParagraphIds st |}.

(** What [moveParagraphInFinal] leaves in the store.  When [dragIndex] is
    past the end, [splice] removes nothing, [removed] is [undefined] and
    that [undefined] is what gets inserted: [UndefinedInserted i l] is the
    array [l] with [undefined] put in at position [i]. *)
Inductive MoveOutcome :=
  | Reordered (l : list Paragraph)
  | UndefinedInserted (i : nat) (l : list Paragraph).

(** The update of the final manuscript [prev]. *)
Definition moveParagraphInFinal (dragIndex hoverIndex : nat)
    (prev : list Paragraph) : MoveOutcome :=
  let updated := delete dragIndex prev in
  match prev !! dragIndex with
  | Some removed => Reordered (splice_in hoverIndex removed updated)
  | None => UndefinedInserted (hoverIndex `min` length updated) updated
  end.

(** ** Files: global import, image insertion *)

(** A [File] of the browser, with the outcome of the two ways the code reads
    it: [await file.text()], which may reject, and
    [FileReader.readAsDataURL], whose [onload] fires with the data URL or
    never fires ([None]). *)
Record File := mkFile {
  name : jsstring;
  type : jsstring;
  fileText : Res jsstring;
  dataURL : option jsstring }.

Fixpoint startsWith (s prefix : jsstring) : bool :=
  match prefix, s with
  | [], _ => true
  | p :: prefix', c :: s' => (c =? p)%N && startsWith s' prefix'
  | _ :: _, [] => false
  end.

Section GlobalUpload.
(** [a.localeCompare(b)]: a collation of the host, negative, zero or
    positive. *)
Variable localeCompare : jsstring → jsstring → Z.

(** [files.sort((a, b) => a.name.localeCompare(b.name))].  The sort of
    ECMAScript is stable; for a consistent comparator every stable sort
    gives the result of this insertion sort. *)
Fixpoint insert_file (x : File) (l : list File) : list File :=
  match l with
  | [] => [x]
  | y :: l' =>
      if decide (localeCompare (name x) (name y) ≤ 0)%Z
      then x :: y :: l'
      else y :: insert_file x l'
  end.

Definition sort_files (files : list File) : list File :=
  foldr insert_file [] files.

(** The body of the [for] loop at index [i]. *)
Definition upload_slot (es : nat → nat → Entropy) (sortedFiles : list File)
    (acc : Res (list (option ManuscriptDraft))) (i : nat)
  : Res (list (option ManuscriptDraft)) :=
  newDrafts ← acc;
  match sortedFiles !! i with
  | None => Throw TypeError
  | Some file =>
      text ← fileText file;
      Ok (js_set i (with_paragraphs (js_get newDrafts i)
                      (parseTextToParagraphs (es i) text i)) newDrafts)
  end.

(** [files] is [e.target.files]; [es i] is the entropy read while slot [i]
    is parsed.  A rejected read rejects the handler before [setDrafts]. *)
Definition handleGlobalFileUpload (es : nat → nat → Entropy)
    (files : option (list File)) (st : AppState) : Res AppState :=
  match files with
  | None | Some [] => Ok st
  | Some files =>
      let sortedFiles := sort_files files in
      newDrafts ← foldl (upload_slot es sortedFiles) (Ok (drafts st))
                    (seq 0 (length sortedFiles `min` 3));
      Ok {| drafts := newDrafts;
            finalParagraphs := finalParagraphs st;
            dismissedParagraphIds := dismissedParagraphIds st |}
  end.
End GlobalUpload.

(** [FinalColumn.handleImageFiles], with [onAddNew] bound to
    [addParagraphToFinal]: [e_img] is read for the image paragraph's id,
    [e_final] when the copy is inserted. *)
Definition handleImageFiles (e_img e_final : Entropy) (files : list File)
    (atIndex : nat) (prev : list Paragraph) : list Paragraph :=
  match files !! 0 with
  | Some file =>
      if startsWith (type file) (lit "image/") then
        match dataURL file with
        | Some base64 =>
            let newParagraph :=
              {| id := lit "img-" ++ show (now e_img);
                 text := lit "![" ++ name file ++ lit "](" ++ base64 ++ lit ")";
                 sourceDraftIndex := None;
                 sourceParaIndex := None;
                 originalId := None |} in
            addParagraphToFinal e_final newParagraph (Some atIndex) prev
        | None => prev
        end
      else prev
  | None => prev
  end.

(** ** AI gateway ([services/geminiService]) *)

Record GenerateContentParameters := mkRequest {
  model : jsstring;
  contents : jsstring;
  temperature : option (N * N) (* numerator, denominator *) }.

(** The [@google/genai] client as the code uses it: the constructor and
    [ai.models.generateContent], either of which may throw, and the [text]
    of a response, which may be [undefined]. *)
Record GoogleGenAI := mkGenAI {
  newGoogleGenAI : Res unit;
  generateContent : GenerateContentParameters → Res (option jsstring) }.

(** "다음 원고를 더 매끄럽고 전문적인 문체로 다듬어줘. 문맥을 유지하면서
    문장 구조와 어휘를 개선해줘:\n\n" *)
Definition polish_instruction : jsstring :=
  [45796; 51020; 32; 50896; 44256; 47484; 32; 45908; 32; 47588; 45124; 47101;
   44256; 32; 51204; 47928; 51201; 51064; 32; 47928; 52404; 47196; 32; 45796;
   46316; 50612; 51480; 46; 32; 47928; 47589; 51012; 32; 50976; 51648; 54616;
   47732; 49436; 32; 47928; 51109; 32; 44396; 51312; 50752; 32; 50612; 55064;
   47484; 32; 44060; 49440; 54644; 51480; 58; 10; 10]%N.

(** "다음 3가지 초안을 하나로 통합하여 가장 완성도 높은 최종 원고를
    작성해줘. 각 초안의 장점을 살려서 자연스럽게 연결해줘.\n\n초안 1:\n" *)
Definition synthesis_instruction : jsstring :=
  [45796; 51020; 32; 51; 44032; 51648; 32; 52488; 50504; 51012; 32; 54616;
   45208; 47196; 32; 53685; 54633; 54616; 50668; 32; 44032; 51109; 32; 50756;
   49457; 46020; 32; 45458; 51008; 32; 52572; 51333; 32; 50896; 44256; 47484;
   32; 51089; 49457; 54644; 51480; 46; 32; 44033; 32; 52488; 50504; 51032; 32;
   51109; 51216; 51012; 32; 49332; 47140; 49436; 32; 51088; 50672; 49828;
   47101; 44172; 32; 50672; 44208; 54644; 51480; 46; 10; 10; 52488; 50504; 32;
   49; 58; 10]%N.

(** "\n\n초안 2:\n" and "\n\n초안 3:\n" *)
Definition draft_heading (n : N) : jsstring :=
  [10; 10; 52488; 50504; 32]%N ++ show n ++ [58; 10]%N.

(** "AI 통합본을 생성하지 못했습니다." *)
Definition synthesis_empty : jsstring :=
  [65; 73; 32; 53685; 54633; 48376; 51012; 32; 49373; 49457; 54616; 51648; 32;
   47803; 54664; 49845; 45768; 45796; 46]%N.

(** "오류가 발생했습니다." *)
Definition synthesis_failed : jsstring :=
  [50724; 47448; 44032; 32; 48156; 49373; 54664; 49845; 45768; 45796; 46]%N.

(** The client is constructed before the [try] block is entered. *)
Definition polishManuscript (ai : GoogleGenAI) (text : jsstring)
  : Res jsstring :=
  _ ← newGoogleGenAI ai;
  try_catch
    (response ← generateContent ai
        {| model := lit "gemini-3-flash-preview";
           contents := polish_instruction ++ text;
           temperature := Some (7, 10)%N |};
     Ok (or_else response text))
    (λ error, Ok text).

(** [`${drafts[i]}`]: a missing element prints as [undefined]. *)
Definition draft_text (drafts : list jsstring) (i : nat) : jsstring :=
  default (lit "undefined") (drafts !! i).

Definition suggestSynthesis (ai : GoogleGenAI) (drafts : list jsstring)
  : Res jsstring :=
  _ ← newGoogleGenAI ai;
  let prompt :=
    synthesis_instruction ++ draft_text drafts 0
      ++ draft_heading 2 ++ draft_text drafts 1
      ++ draft_heading 3 ++ draft_text drafts 2 in
  try_catch
    (response ← generateContent ai
        {| model := lit "gemini-3-pro-preview";
           contents := prompt;
           temperature := None |};
     Ok (or_else response synthesis_empty))
    (λ error, Ok synthesis_failed).

(** [l.join(sep)] *)
Fixpoint join (sep : jsstring) (l : list jsstring) : jsstring :=
  match l with
  | [] => []
  | [s] => s
  | s :: l' => s ++ sep ++ join sep l'
  end.

(** [handlePolish] of the variant of the application that has the polish
    button: the manuscript is replaced by the split of the polished text.
    [nows idx] is [Date.now()] while paragraph [idx] is built. *)
Definition handlePolish (ai : GoogleGenAI) (nows : nat → N)
    (finalParagraphs : list Paragraph) : Res (list Paragraph) :=
  match finalParagraphs with
  | [] => Ok []
  | _ =>
      let fullText := join [LF; LF] (text <$> finalParagraphs) in
      polished ← polishManuscript ai fullText;
      Ok (imap (λ idx text,
                  {| id := lit "polished-" ++ show (N.of_nat idx) ++ lit "-"
                             ++ show (nows idx);
                     text := text;
                     sourceDraftIndex := None;
                     sourceParaIndex := None;
                     originalId := None |})
               (filter (λ p, p ≠ []) (trim <$> split_paragraphs polished)))
  end.

(** ** Initial state from local storage *)

(** A value produced by [JSON.parse].  Of a number the code only observes
    whether it is zero, so integers stand for all numbers. *)
Inductive JSON :=
  | JNull
  | JBool (b : bool)
  | JNum (n : Z)
  | JStr (s : jsstring)
  | JArr (items : list JSON)
  | JObj (fields : list (jsstring * JSON)).

(** [v.key]: reading a property of [null] throws; a key that is absent, or
    any key of this kind read from a primitive or an array, gives
    [undefined]. *)
Definition get_prop (v : JSON) (key : jsstring) : Res (option JSON) :=
  match v with
  | JNull => Throw TypeError
  | JObj fields => Ok (snd <$> find (λ kv, bool_decide (kv.1 = key)) fields)
  | _ => Ok None
  end.

(** Truthiness of a property that was read. *)
Definition json_truthy (v : option JSON) : bool :=
  match v with
  | None | Some JNull => false
  | Some (JBool b) => b
  | Some (JNum n) => negb (n =? 0)%Z
  | Some (JStr s) => truthy s
  | Some (JArr _) | Some (JObj _) => true
  end.

Definition is_high_surrogate (c : N) : bool := (55296 <=? c)%N && (c <=? 56319)%N.

Definition is_low_surrogate (c : N) : bool := (56320 <=? c)%N && (c <=? 57343)%N.

(** Iterating a string yields its code points. *)
Fixpoint code_points (s : jsstring) : list jsstring :=
  match s with
  | [] => []
  | c :: r =>
      match r with
      | d :: r' =>
          if is_high_surrogate c && is_low_surrogate d
          then [c; d] :: code_points r'
          else [c] :: code_points r
      | [] => [[c]]
      end
  end.

(** The elements [new Set(v)] is built from, for a truthy [v]: those of an
    array, the code points of a string; anything else is not iterable. *)
Definition set_elements (v : JSON) : Res (list JSON) :=
  match v with
  | JArr items => Ok items
  | JStr s => Ok (JStr <$> code_points s)
  | _ => Throw TypeError
  end.

(** What a state initializer returns: the stored value as it was parsed (it
    is not validated), or the built-in default. *)
Inductive Loaded (A : Type) :=
  | FromStorage (raw : JSON)
  | Fallback (a : A).

Arguments FromStorage {A} raw.
Arguments Fallback {A} a.

(** "초안 1", "초안 2", "초안 3" *)
Definition draft_title (n : N) : jsstring := [52488; 50504; 32]%N ++ show n.

Definition default_drafts : list (option ManuscriptDraft) :=
  [ Some {| draftId := Some 1; title := Some (draft_title 1);
            customTitle := Some []; paragraphs := [] |};
    Some {| draftId := Some 2; title := Some (draft_title 2);
            customTitle := Some []; paragraphs := [] |};
    Some {| draftId := Some 3; title := Some (draft_title 3);
            customTitle := Some []; paragraphs := [] |} ].

Section Initializers.
(** [JSON.parse], which throws a [SyntaxError] on malformed input. *)
Variable JSON_parse : jsstring → Res JSON.

(** In the three initializers [saved] is what
    [localStorage.getItem(STORAGE_KEY)] returned, and the first step
    computes what the [if (saved) { try ... catch ... }] statement
    returns from inside the [try], if anything; [console.error] in the
    handler is not modelled. *)
Definition init_drafts (saved : option jsstring)
  : Res (Loaded (list (option ManuscriptDraft))) :=
  returned ←
    match saved with
    | Some s =>
        if truthy s then
          try_catch
            (parsed ← JSON_parse s;
             v ← get_prop parsed (lit "drafts");
             Ok (if json_truthy v then v else None))
            (λ e, Ok None)
        else Ok None
    | None => Ok None
    end;
  Ok (match returned with
      | Some raw => FromStorage raw
      | None => Fallback default_drafts
      end).

Definition init_finalParagraphs (saved : option jsstring)
  : Res (Loaded (list Paragraph)) :=
  returned ←
    match saved with
    | Some s =>
        if truthy s then
          try_catch
            (parsed ← JSON_parse s;
             v ← get_prop parsed (lit "finalParagraphs");
             Ok (if json_truthy v then v else None))
            (λ e, Ok None)
        else Ok None
    | None => Ok None
    end;
  Ok (match returned with
      | Some raw => FromStorage raw
      | None => Fallback []
      end).

(** [FromStorage (JArr items)] stands for the set built from [items]. *)
Definition init_dismissedParagraphIds (saved : option jsstring)
  : Res (Loaded (gset jsstring)) :=
  returned ←
    match saved with
    | Some s =>
        if truthy s then
          try_catch
            (parsed ← JSON_parse s;
             v ← get_prop parsed (lit "dismissedParagraphIds");
             match v with
             | Some v' =>
                 if json_truthy v
                 then items ← set_elements v'; Ok (Some (JArr items))
                 else Ok None
             | None => Ok None
             end)
            (λ e, Ok None)
        else Ok None
    | None => Ok None
    end;
  Ok (match returned with
      | Some raw => FromStorage raw
      | None => Fallback ∅
      end).
End Initializers.

(** ** The other handlers of the stores ([App.tsx]) *)

(** An empty slot is a hole of the array, as [js_set] leaves them: [map]
    skips it and it stays empty.  (On a slot holding [undefined] the
    callback would throw at [draftIdx]; what is proved of this handler is
    about slots that hold a draft and about indices past the end.) *)
Definition removeParagraphFromDraft (draftIdx : nat) (paraId : jsstring)
    (st : AppState) : AppState :=
  {| drafts :=
       imap (λ i slot,
               match slot with
               | Some draft =>
                   if decide (i = draftIdx)
                   then Some (with_paragraphs (Some draft)
                                (filter (λ p, id p ≠ paraId) (paragraphs draft)))
                   else Some draft
               | None => None
               end) (drafts st);
     finalParagraphs := finalParagraphs st;
     dismissedParagraphIds := dismissedParagraphIds st |}.

(** The update of the final manuscript [prev]. *)
Definition removeParagraphFromFinal (targetId : jsstring)
    (prev : list Paragraph) : list Paragraph :=
  filter (λ p, id p ≠ targetId) prev.

(** The update of the final manuscript [prev]. *)
Definition updateFinalParagraphText (targetId newText : jsstring)
    (prev : list Paragraph) : list Paragraph :=
  (λ p, if decide (id p = targetId)
        then {| id := id p;
                text := newText;
                sourceDraftIndex := sourceDraftIndex p;
                sourceParaIndex := sourceParaIndex p;
                originalId := originalId p |}
        else p) <$> prev.

(** The update of the dismissed set [prev]. *)
Definition toggleDismissParagraph (targetId : jsstring)
    (prev : gset jsstring) : gset jsstring :=
  if decide (targetId ∈ prev) then prev ∖ {[targetId]}
  else prev ∪ {[targetId]}.

(** The content of the file [exportText] offers for download. *)
Definition exportText (finalParagraphs : list Paragraph) : jsstring :=
  join [LF; LF] (text <$> finalParagraphs).

(** ** The draft column ([components/DraftColumn]) *)

(** The text [handleStartInput] puts in the editor. *)
Definition handleStartInput (draft : ManuscriptDraft) : jsstring :=
  join [LF; LF] (text <$> paragraphs draft).

(** [index] is the slot of the column, whose [onUpdateContent] is
    [updateDraftContent] at that slot. *)
Definition handleFinishInput (es : nat → Entropy) (index : nat)
    (rawText : jsstring) (st : AppState) : AppState :=
  if decide (trim rawText ≠ []) then updateDraftContent es index rawText st
  else st.

(** [FileReader.readAsText] is taken to deliver what [file.text()]
    delivers; when the read fails [onload] does not fire. *)
Definition handleFileUpload (es : nat → Entropy) (index : nat)
    (files : list File) (st : AppState) : AppState :=
  match files !! 0 with
  | Some file =>
      match fileText file with
      | Ok content => updateDraftContent es index content st
      | Throw _ => st
      end
  | None => st
  end.

(** The click on a paragraph of the column:
    [!isBlind && onAddParagraph(p)]. *)
Definition draftParagraphClick (e : Entropy) (dismissedIds : gset jsstring)
    (p : Paragraph) (prev : list Paragraph) : list Paragraph :=
  if decide (id p ∈ dismissedIds) then prev
  else addParagraphToFinal e p None prev.


(** ** Drops on the final column ([components/FinalColumn]) *)

Inductive DropPosition :=
  | Top
  | Bottom
  | NoPosition.

(** The payload of a drag, as the two drag sources of the application
    write it. *)
Inductive DragData :=
  | NewParagraph (paragraph : Paragraph)
  | ReorderParagraph (index : nat)
  | OtherData.

(** [handleDrop] on the paragraph at [dropIndex]: [files] is
    [e.dataTransfer.files], [data] the parsed payload ([None] when there is
    none), [position] the half of the target the pointer is over.
    [Reordered l] says that the manuscript is [l] afterwards. *)
Definition handleDrop (e_img e_final : Entropy) (files : list File)
    (data : option DragData) (position : DropPosition) (dropIndex : nat)
    (prev : list Paragraph) : MoveOutcome :=
  let finalIndex :=
    match position with
    | Bottom => dropIndex + 1
    | _ => dropIndex
    end in
  match files with
  | _ :: _ => Reordered (handleImageFiles e_img e_final files finalIndex prev)
  | [] =>
      match data with
      | None => Reordered prev
      | Some (NewParagraph paragraph) =>
          Reordered (addParagraphToFinal e_final paragraph (Some finalIndex) prev)
      | Some (ReorderParagraph sourceIndex) =>
          if decide (sourceIndex ≠ finalIndex ∧ sourceIndex + 1 ≠ finalIndex)
          then
            let targetIndex :=
              if decide (sourceIndex < finalIndex) then finalIndex - 1
              else finalIndex in
            moveParagraphInFinal sourceIndex targetIndex prev
          else Reordered prev
      | Some OtherData => Reordered prev
      end
  end.

(** *** [getImageData]: [/^!\[(.*?)\]\((data:image\/.*?;base64,.*?)\)$/s]

    The pattern is matched at the start of the trimmed text only.  Each
    piece is given the rest of the pattern as its continuation, so that a
    failure further on makes a lazy piece take one more unit. *)

(** A literal piece. *)
Definition literal_then {B} (l : jsstring) (k : jsstring → option B)
    (s : jsstring) : option B :=
  if startsWith s l then k (drop (length l) s) else None.

(** [.*?] with the flag [s]: as few units as the continuation allows.  The
    units taken are returned beside what the continuation returns. *)
Fixpoint lazy_then {B} (k : jsstring → option B) (s : jsstring)
  : option (jsstring * B) :=
  match k s with
  | Some b => Some ([], b)
  | None =>
      match s with
      | c :: r =>
          match lazy_then k r with
          | Some (m, b) => Some (c :: m, b)
          | None => None
          end
      | [] => None
      end
  end.

(** [$] *)
Definition at_end (s : jsstring) : option unit :=
  match s with
  | [] => Some ()
  | _ :: _ => None
  end.

Record ImageData := mkImageData {
  alt : jsstring;
  src : jsstring }.

Definition getImageData (text : jsstring) : option ImageData :=
  literal_then (lit "![")
    (λ s1,
       match
         lazy_then
           (literal_then (lit "](")
              (literal_then (lit "data:image/")
                 (lazy_then
                    (literal_then (lit ";base64,")
                       (lazy_then (literal_then (lit ")") at_end))))))
           s1
       with
       | Some (m1, (x, (y, _))) =>
           Some {| alt := m1;
                   src := lit "data:image/" ++ x ++ lit ";base64," ++ y |}
       | None => None
       end)
    (trim text).

(** * Part II: vocabulary of the properties *)

(** ** Chunks and separators, as the specification describes the input *)

(** White space only. *)
Definition all_space (s : jsstring) : bool := forallb is_space s.

(** Somewhere in [s] a newline is followed, after white space only, by
    another newline: [s] holds a paragraph boundary. *)
Fixpoint has_boundary (s : jsstring) : bool :=
  match s with
  | [] => false
  | c :: r =>
      is_lf c && existsb is_lf (take_while is_space r) || has_boundary r
  end.

Definition starts_clean (s : jsstring) : bool :=
  match s with
  | c :: _ => negb (is_space c)
  | [] => false
  end.

Definition clean_or_empty (s : jsstring) : bool :=
  match s with
  | c :: _ => negb (is_space c)
  | [] => true
  end.

(** A chunk: not empty, no white space at either end, no boundary inside. *)
Definition is_chunk (c : jsstring) : bool :=
  starts_clean c && starts_clean (reverse c) && negb (has_boundary c).

(** What stands between two chunks: white space only, with two newlines or
    more in it. *)
Definition is_separator (s : jsstring) : bool :=
  all_space s && bool_decide (2 ≤ length (filter (λ c, c = LF) s)).

(** [c1 ++ s1 ++ c2 ++ ... ++ cN] for [c1] and [(s1, c2); ...]. *)
Fixpoint join_chunks (c : jsstring) (rest : list (jsstring * jsstring))
  : jsstring :=
  match rest with
  | [] => c
  | (s, c') :: rest' => c ++ s ++ join_chunks c' rest'
  end.

(** The texts of the paragraphs the scan yields from [s] when [acc] is
    pending. *)
Definition texts_from (acc s : jsstring) : list jsstring :=
  filter (λ p, p ≠ []) (trim <$> split_from acc s).

(** ** Minted ids, appended copies, imported slots *)

(** The code units of a decimal numeral. *)
Definition is_digit (c : N) : Prop := (48 ≤ c ≤ 57)%N.

(** The entries [addAllFromDraft] builds from the paragraphs it adds. *)
Definition final_copies (es : nat → Entropy) (toAdd : list Paragraph)
  : list Paragraph :=
  imap (λ i p,
          {| id := final_id (es i);
             text := text p;
             sourceDraftIndex := sourceDraftIndex p;
             sourceParaIndex := sourceParaIndex p;
             originalId := Some (id p) |}) toAdd.



(** ** Sample inputs *)

Definition sample_entropy : nat → Entropy :=
  λ i, mkEntropy (1700000000000 + N.of_nat i) (lit "0.25").

Definition sample_final : list Paragraph :=
  [ {| id := lit "final-1-0.1"; text := lit "one"; sourceDraftIndex := Some 0;
       sourceParaIndex := Some 0; originalId := Some (lit "draft-0-0-1-0.1") |};
    {| id := lit "final-2-0.2"; text := lit "two"; sourceDraftIndex := Some 1;
       sourceParaIndex := Some 0; originalId := Some (lit "draft-1-0-1-0.2") |};
    {| id := lit "final-3-0.3";
       text := lit "![a.png](data:image/png;base64,AA==)";
       sourceDraftIndex := None; sourceParaIndex := None;
       originalId := Some (lit "img-3") |} ].

(** Draft 1 holds two paragraphs, the first of which is already in the
    final manuscript. *)
Definition sample_draft : ManuscriptDraft :=
  {| draftId := Some 1; title := Some (draft_title 1); customTitle := Some [];
     paragraphs :=
       [ {| id := lit "draft-0-0-1-0.1"; text := lit "one";
            sourceDraftIndex := Some 0; sourceParaIndex := Some 0;
            originalId := Some (lit "draft-0-0-1-0.1") |};
         {| id := lit "draft-0-1-1-0.7"; text := lit "uno";
            sourceDraftIndex := Some 0; sourceParaIndex := Some 1;
            originalId := Some (lit "draft-0-1-1-0.7") |} ] |}.

Definition sample_state : AppState :=
  {| drafts := [Some sample_draft];
     finalParagraphs := sample_final;
     dismissedParagraphIds := ∅ |}.

(** A manuscript entry whose [originalId] is the empty string. *)
Definition empty_origin_entry : Paragraph :=
  {| id := lit "final-1-0.5"; text := lit "x"; sourceDraftIndex := None;
     sourceParaIndex := None; originalId := Some [] |}.

(** A paragraph whose [originalId] is present but empty. *)
Definition empty_origin_source : Paragraph :=
  {| id := lit "draft-0-0-1-0.5"; text := lit "x";
     sourceDraftIndex := Some 0; sourceParaIndex := Some 0;
     originalId := Some [] |}.


(** A stand-in for [JSON.parse] that accepts the text [null] only. *)
Definition sample_parse (s : jsstring) : Res JSON :=
  if decide (s = lit "null") then Ok JNull else Throw SyntaxError.

(** Comparison by code units, standing for a collation of the host. *)
Fixpoint code_unit_compare (a b : jsstring) : Z :=
  match a, b with
  | [], [] => 0
  | [], _ :: _ => -1
  | _ :: _, [] => 1
  | x :: a', y :: b' =>
      if (x <? y)%N then -1
      else if (y <? x)%N then 1
      else code_unit_compare a' b'
  end.

Definition text_file (n content : string) : File :=
  {| name := lit n; type := lit "text/plain";
     fileText := Ok (lit content); dataURL := None |}.

Definition sample_files : list File :=
  [ text_file "b.txt" "second";
    text_file "d.txt" "fourth";
    text_file "a.txt" "first";
    text_file "c.md" "third" ].

(** ** Drops *)

(** The manuscript [l] once its entry [x] at position [src] has been taken
    out and put back just before what stood at position [f]: the entries
    that stood before [f], then [x], then those that stood from [f] on, in
    both parts without [x] and in their order. *)
Definition moved_before (f src : nat) (x : Paragraph) (l : list Paragraph)
  : list Paragraph :=
  if decide (src < f) then delete src (take f l) ++ x :: drop f l
  else take f l ++ x :: delete (src - f) (drop f l).

(** ** Tags of the draft paragraphs *)

(** Every paragraph of every draft carries the index of its slot as
    [sourceDraftIndex] and its own id as [originalId]. *)
Definition drafts_tagged (ds : list (option ManuscriptDraft)) : Prop :=
  ∀ k draft p,
    js_get ds k = Some draft → p ∈ paragraphs draft →
    sourceDraftIndex p = Some k ∧ originalId p = Some (id p).

(** ** Requests of the gateway *)

(** The request [polishManuscript] sends for [text]. *)
Definition polish_request (text : jsstring) : GenerateContentParameters :=
  {| model := lit "gemini-3-flash-preview";
     contents := polish_instruction ++ text;
     temperature := Some (7, 10)%N |}.

(** The request [suggestSynthesis] sends for [drafts]. *)
Definition synthesis_request (drafts : list jsstring)
  : GenerateContentParameters :=
  {| model := lit "gemini-3-pro-preview";
     contents :=
       synthesis_instruction ++ draft_text drafts 0
         ++ draft_heading 2 ++ draft_text drafts 1
         ++ draft_heading 3 ++ draft_text drafts 2;
     temperature := None |}.

(** * Part III: properties *)

(** ** Lists and arrays *)


Lemma fmap_imap_pointwise {A B C} (g : B → C) (f : nat → A → B) (h : A → C)
    (l : list A) :
  (∀ i x, g (f i x) = h x) → g <$> imap f l = h <$> l.
Proof.
  intros Hgf. revert f Hgf.
  induction l as [|x l IH]; intros f Hgf; [done|].
  simpl. f_equal; [apply Hgf|]. apply IH. intros i y. apply Hgf.
Qed.

Lemma filter_none {A} (P : A → Prop) `{!∀ x, Decision (P x)} (l : list A) :
  (∀ x, x ∈ l → ¬ P x) → filter P l = [].
Proof.
  induction l as [|x l IH]; intros Hl; [done|].
  rewrite filter_cons_False by (apply Hl, elem_of_cons; by left).
  apply IH. intros y Hy. apply Hl, elem_of_cons. by right.
Qed.

Section Splice.
Context {A : Type}.
Implicit Types (l : list A) (x : A) (i : nat).

Lemma splice_in_length i x l : length (splice_in i x l) = S (length l).
Proof.
  unfold splice_in. rewrite length_app; simpl.
  rewrite length_take, length_drop. lia.
Qed.

Lemma splice_in_lookup i x l :
  splice_in i x l !! (i `min` length l) = Some x.
Proof.
  unfold splice_in.
  rewrite lookup_app_r; rewrite length_take; [|lia].
  by rewrite Nat.sub_diag.
Qed.

Lemma splice_in_delete i x l :
  delete (i `min` length l) (splice_in i x l) = l.
Proof.
  unfold splice_in.
  assert (i `min` length l = length (take i l)) as ->
    by (rewrite length_take; lia).
  rewrite delete_middle. apply take_drop.
Qed.

Lemma splice_in_removed i x l :
  l !! i = Some x → splice_in i x (delete i l) = l.
Proof.
  intros Hi. unfold splice_in. rewrite delete_take_drop.
  pose proof (lookup_lt_Some _ _ _ Hi) as Hlt.
  pose proof (take_drop_middle l i x Hi) as Hmid.
  assert (length (take i l) = i) as Hlen by (rewrite length_take; lia).
  set (t := take i l) in *. set (d := drop (S i) l) in *.
  clearbody t d. subst i.
  by rewrite take_app_length, drop_app_length.
Qed.

Lemma elem_of_splice_in i x y l : y ∈ splice_in i x l ↔ y = x ∨ y ∈ l.
Proof.
  unfold splice_in. rewrite elem_of_app, elem_of_cons.
  rewrite <- (take_drop i l) at 3. rewrite elem_of_app. tauto.
Qed.
End Splice.

Lemma js_get_js_set {A} (i j : nat) (v : A) (l : list (option A)) :
  js_get (js_set i v l) j = if decide (j = i) then Some v else js_get l j.
Proof.
  unfold js_get, js_set. destruct (decide (i < length l)) as [Hlt|Hge].
  - destruct (decide (j = i)) as [->|Hne].
    + by rewrite list_lookup_insert_eq.
    + by rewrite list_lookup_insert_ne.
  - destruct (decide (j = i)) as [->|Hne].
    + rewrite lookup_app_r by lia.
      rewrite lookup_app_r; rewrite length_replicate; [|lia].
      by rewrite Nat.sub_diag.
    + destruct (decide (j < length l)) as [Hj|Hj].
      * by rewrite lookup_app_l.
      * rewrite (lookup_ge_None_2 l j) by lia.
        rewrite lookup_app_r by lia.
        destruct (decide (j < i)).
        -- rewrite lookup_app_l by (rewrite length_replicate; lia).
           rewrite lookup_replicate_2 by lia. done.
        -- rewrite lookup_app_r by (rewrite length_replicate; lia).
           rewrite length_replicate.
           rewrite lookup_ge_None_2; [done|]. simpl. lia.
Qed.

(** ** Minted ids *)

Lemma lit_inj (s1 s2 : string) : lit s1 = lit s2 → s1 = s2.
Proof.
  revert s2. induction s1 as [|a s1 IH]; intros [|b s2]; try done.
  unfold lit. simpl. intros [= Hab Hs].
  f_equal; [|by apply IH].
  rewrite <- (Ascii.ascii_N_embedding a), <- (Ascii.ascii_N_embedding b).
  by rewrite Hab.
Qed.

Lemma pretty_N_go_digits (x : N) (s : string) :
  Forall is_digit (lit s) → Forall is_digit (lit (pretty_N_go x s)).
Proof.
  revert s. induction (N.lt_wf_0 x) as [x _ IH]; intros s Hs.
  destruct (decide (x = 0)%N) as [->|Hx]; [done|].
  rewrite pretty_N_go_step by lia. apply IH.
  { apply N.div_lt; lia. }
  unfold lit. simpl. constructor; [|done].
  unfold pretty_N_char, is_digit. repeat case_match; simpl; lia.
Qed.

Lemma show_digits (n : N) : Forall is_digit (show n).
Proof.
  unfold show, pretty, pretty_N. case_decide.
  - repeat constructor; unfold is_digit; simpl; lia.
  - apply pretty_N_go_digits. constructor.
Qed.

Lemma show_inj (n m : N) : show n = show m → n = m.
Proof. intros H%lit_inj. by apply (inj pretty). Qed.

(** Two texts that start with digits up to a dash agree on both parts. *)
Lemma split_at_dash (a a' r r' : jsstring) :
  Forall is_digit a → Forall is_digit a' →
  a ++ lit "-" ++ r = a' ++ lit "-" ++ r' → a = a' ∧ r = r'.
Proof.
  intros Ha. revert a'. induction Ha as [|c a Hc Ha IH]; intros a' Ha'.
  - destruct Ha' as [|c' a' Hc' _]; simpl.
    + by intros [= ->].
    + intros [= <- _]. unfold is_digit in Hc'. lia.
  - destruct Ha' as [|c' a' Hc' Ha']; simpl.
    + intros [= -> _]. unfold is_digit in Hc. lia.
    + intros [= -> Hrest]. destruct (IH a' Ha' Hrest) as [-> ->]. done.
Qed.

Lemma final_id_inj (e1 e2 : Entropy) : final_id e1 = final_id e2 → e1 = e2.
Proof.
  unfold final_id. intros H%app_inv_head.
  apply split_at_dash in H as [Hn%show_inj Hr]; [|apply show_digits..].
  destruct e1, e2; simpl in *. by subst.
Qed.

Lemma draft_para_id_inj (k1 k2 i1 i2 : nat) (e1 e2 : Entropy) :
  draft_para_id k1 i1 e1 = draft_para_id k2 i2 e2 →
  k1 = k2 ∧ i1 = i2 ∧ e1 = e2.
Proof.
  unfold draft_para_id. intros H%app_inv_head.
  apply split_at_dash in H as [Hk%show_inj H]; [|apply show_digits..].
  apply split_at_dash in H as [Hi%show_inj H]; [|apply show_digits..].
  apply split_at_dash in H as [Hn%show_inj Hr]; [|apply show_digits..].
  destruct e1, e2; simpl in *. subst. split; [lia|]. split; [lia|done].
Qed.

(** ** The scan of [split] *)

Lemma split_from_nil acc : split_from acc [] = [reverse acc].
Proof. by simp split_from. Qed.

Lemma split_from_match acc c r rest :
  sep_match (c :: r) = Some rest →
  split_from acc (c :: r) = reverse acc :: split_from [] rest.
Proof.
  intros Hm. simp split_from.
  generalize (Logic.inspect (sep_match (c :: r))). 
  intros [[x|] Hx]; simp split_from.
  - congruence.
  - congruence.
Qed.

Lemma split_from_skip acc c r :
  sep_match (c :: r) = None →
  split_from acc (c :: r) = split_from (c :: acc) r.
Proof.
  intros Hm. simp split_from.
  generalize (Logic.inspect (sep_match (c :: r))). 
  intros [[x|] Hx]; simp split_from.
  - congruence.
  - done.
Qed.

Lemma is_lf_eq c : is_lf c = true → c = LF.
Proof. unfold is_lf. by intros ?%N.eqb_eq. Qed.

Lemma is_lf_space c : is_lf c = true → is_space c = true.
Proof. by intros ->%is_lf_eq. Qed.

Lemma not_space_not_lf c : is_space c = false → is_lf c = false.
Proof.
  intros Hs. destruct (is_lf c) eqn:Hl; [|done].
  apply is_lf_space in Hl. congruence.
Qed.

Lemma all_space_cons c w :
  all_space (c :: w) = true ↔ is_space c = true ∧ all_space w = true.
Proof. unfold all_space. simpl. by rewrite andb_true_iff. Qed.

Lemma all_space_app w1 w2 :
  all_space (w1 ++ w2) = true ↔ all_space w1 = true ∧ all_space w2 = true.
Proof. unfold all_space. by rewrite forallb_app, andb_true_iff. Qed.

Lemma all_space_reverse w : all_space w = true → all_space (reverse w) = true.
Proof.
  induction w as [|c w IH]; [done|].
  rewrite all_space_cons, reverse_cons, all_space_app. intros [Hc Hw].
  split; [by apply IH|]. by apply all_space_cons.
Qed.

Lemma take_while_all_space w : all_space w = true → take_while is_space w = w.
Proof.
  induction w as [|c w IH]; [done|].
  rewrite all_space_cons. intros [Hc Hw]. simpl. by rewrite Hc, IH.
Qed.

Lemma drop_while_no_lf w t :
  existsb is_lf w = false → clean_or_empty t = true →
  drop_while is_lf (w ++ t) = w ++ t.
Proof.
  destruct w as [|c w]; simpl.
  - intros _. destruct t as [|c t]; simpl; [done|].
    intros Hc%negb_true_iff. by rewrite not_space_not_lf.
  - intros [Hc _]%orb_false_iff _. by rewrite Hc.
Qed.

(** The pattern after its first newline, tried on a white-space run [w]
    followed by [t]: it matches up to the last newline of [w]. *)
Lemma ws_star_run w t :
  all_space w = true → clean_or_empty t = true →
  match ws_star_then nl_plus (w ++ t) with
  | Some rest => ∃ w1 w2, w = w1 ++ LF :: w2 ∧ rest = w2 ++ t
  | None => existsb is_lf w = false
  end.
Proof.
  intros Hw Ht. induction w as [|c w IH].
  - simpl. destruct t as [|c t]; simpl; [done|].
    simpl in Ht. apply negb_true_iff in Ht. rewrite Ht.
    simpl. by rewrite not_space_not_lf.
  - apply all_space_cons in Hw as [Hc Hw]. specialize (IH Hw).
    cbn [app ws_star_then]. rewrite Hc.
    destruct (ws_star_then nl_plus (w ++ t)) as [rest|].
    + destruct IH as (w1 & w2 & -> & ->). by exists (c :: w1), w2.
    + cbn [nl_plus]. destruct (is_lf c) eqn:Hl.
      * apply is_lf_eq in Hl as ->.
        exists [], w. by rewrite drop_while_no_lf.
      * simpl. by rewrite Hl.
Qed.

Lemma existsb_lf_middle w1 w2 : existsb is_lf (w1 ++ LF :: w2) = true.
Proof. rewrite existsb_app. simpl. by rewrite orb_true_r. Qed.

(** The whole pattern tried at a position inside a white-space run. *)
Lemma sep_match_blank c w t :
  all_space w = true → clean_or_empty t = true →
  match sep_match (c :: w ++ t) with
  | Some rest => ∃ w1 w2, w = w1 ++ LF :: w2 ∧ rest = w2 ++ t
  | None => is_lf c && existsb is_lf w = false
  end.
Proof.
  intros Hw Ht. cbn [sep_match]. destruct (is_lf c); [|done].
  pose proof (ws_star_run w t Hw Ht) as Hrun.
  by destruct (ws_star_then nl_plus (w ++ t)).
Qed.

Lemma has_boundary_blank c w :
  all_space w = true →
  has_boundary (c :: w) = is_lf c && existsb is_lf w || has_boundary w.
Proof. intros Hw. simpl. by rewrite take_while_all_space. Qed.

(** The scan over a white-space run [w] that is followed by [t]: when [w]
    holds no boundary it joins the pending piece; when it does, the pending
    piece is closed (with some white space [pre] of the run after it), the
    pieces closed inside the run are white space only, and a white-space
    piece [acc'] is pending when the scan reaches [t]. *)
Lemma scan_blank_bounded (n : nat) :
  ∀ w acc t,
    length w ≤ n → all_space w = true → clean_or_empty t = true →
    if has_boundary w then
      ∃ pre blanks acc',
        all_space pre = true
        ∧ Forall (λ b, all_space b = true) blanks
        ∧ all_space acc' = true
        ∧ split_from acc (w ++ t)
          = (reverse acc ++ pre) :: blanks ++ split_from acc' t
    else split_from acc (w ++ t) = split_from (reverse w ++ acc) t.
Proof.
  induction n as [|n IH]; intros w acc t Hn Hw Ht.
  { destruct w; [done|simpl in Hn; lia]. }
  destruct w as [|c w]; [done|]. simpl in Hn.
  apply all_space_cons in Hw as [Hc Hw].
  rewrite has_boundary_blank by done.
  pose proof (sep_match_blank c w t Hw Ht) as Hm.
  cbn [app]. destruct (sep_match (c :: w ++ t)) as [rest|] eqn:Hsep.
  - destruct Hm as (w1 & w2 & -> & ->).
    rewrite (split_from_match _ _ _ _ Hsep).
    assert (is_lf c = true) as Hl.
    { cbn [sep_match] in Hsep. by destruct (is_lf c). }
    rewrite Hl, existsb_lf_middle. simpl.
    apply all_space_app in Hw as [_ [_ Hw2]%all_space_cons].
    rewrite length_app in Hn. simpl in Hn.
    specialize (IH w2 [] t ltac:(lia) Hw2 Ht).
    exists [].
    destruct (has_boundary w2).
    + destruct IH as (pre & blanks & acc' & Hpre & Hblanks & Hacc' & ->).
      exists (pre :: blanks), acc'. rewrite app_nil_r.
      split; [done|]. split; [by constructor|]. done.
    + exists [], (reverse w2 ++ []). rewrite IH, !app_nil_r.
      split; [done|]. split; [constructor|].
      split; [by apply all_space_reverse|done].
  - rewrite Hm. rewrite orb_false_l.
    rewrite (split_from_skip _ _ _ Hsep).
    specialize (IH w (c :: acc) t ltac:(lia) Hw Ht).
    destruct (has_boundary w).
    + destruct IH as (pre & blanks & acc' & Hpre & Hblanks & Hacc' & ->).
      exists (c :: pre), blanks, acc'.
      split; [by apply all_space_cons|]. split; [done|]. split; [done|].
      by rewrite reverse_cons, <- app_assoc.
    + rewrite IH. by rewrite reverse_cons, <- app_assoc.
Qed.

Lemma scan_blank (w acc t : jsstring) :
  all_space w = true → clean_or_empty t = true →
  if has_boundary w then
    ∃ pre blanks acc',
      all_space pre = true
      ∧ Forall (λ b, all_space b = true) blanks
      ∧ all_space acc' = true
      ∧ split_from acc (w ++ t)
        = (reverse acc ++ pre) :: blanks ++ split_from acc' t
  else split_from acc (w ++ t) = split_from (reverse w ++ acc) t.
Proof. by apply (scan_blank_bounded (length w)). Qed.

Lemma has_boundary_app_r a b : has_boundary (a ++ b) = false → has_boundary b = false.
Proof.
  induction a as [|c a IH]; [done|]. simpl.
  intros [_ H]%orb_false_iff. by apply IH.
Qed.

Lemma ends_clean_suffix c a b :
  starts_clean (reverse c) = true → c = a ++ b → b ≠ [] →
  all_space b = false.
Proof.
  intros Hc -> Hb.
  destruct (reverse b) as [|y rb] eqn:Hrev.
  { apply (f_equal reverse) in Hrev. rewrite reverse_involutive in Hrev.
    done. }
  rewrite reverse_app, Hrev in Hc. simpl in Hc.
  apply negb_true_iff in Hc.
  apply (f_equal reverse) in Hrev. rewrite reverse_involutive in Hrev.
  rewrite Hrev, reverse_cons.
  destruct (all_space (reverse rb ++ [y])) eqn:Hall; [|done].
  apply all_space_app in Hall as [_ Hy].
  apply all_space_cons in Hy as [Hy _]. congruence.
Qed.

Lemma split_at_first_clean b :
  all_space b = false →
  ∃ w y v, b = w ++ y :: v ∧ all_space w = true ∧ is_space y = false.
Proof.
  induction b as [|c b IH]; [done|]. intros Hb.
  destruct (is_space c) eqn:Hc.
  - destruct IH as (w & y & v & -> & Hw & Hy).
    { unfold all_space in *. simpl in Hb. by rewrite Hc in Hb. }
    exists (c :: w), y, v. split; [done|]. split; [|done].
    by apply all_space_cons.
  - by exists [], c, b.
Qed.

Lemma take_while_app_clean w y v :
  all_space w = true → is_space y = false →
  take_while is_space (w ++ y :: v) = w.
Proof.
  intros Hw Hy. induction w as [|c w IH]; simpl.
  - by rewrite Hy.
  - apply all_space_cons in Hw as [Hc Hw]. by rewrite Hc, IH.
Qed.

(** Inside a chunk the pattern matches nowhere, whatever follows. *)
Lemma chunk_suffix_no_match c s a b :
  has_boundary c = false → starts_clean (reverse c) = true →
  c = a ++ b → b ≠ [] → sep_match (b ++ s) = None.
Proof.
  intros Hnb Hend Hc Hb.
  destruct b as [|x b]; [done|]. cbn [app sep_match].
  destruct (is_lf x) eqn:Hx; [|done].
  pose proof (ends_clean_suffix c a (x :: b) Hend Hc Hb) as Hall.
  assert (all_space b = false) as Hallb.
  { unfold all_space in *. simpl in Hall.
    by rewrite (is_lf_space _ Hx) in Hall. }
  destruct (split_at_first_clean b Hallb) as (w & y & v & -> & Hw & Hy).
  subst c. apply has_boundary_app_r in Hnb. simpl in Hnb.
  apply orb_false_iff in Hnb as [Hnb _].
  rewrite Hx, take_while_app_clean in Hnb by done. simpl in Hnb.
  rewrite <- app_assoc.
  pose proof (ws_star_run w ((y :: v) ++ s) Hw) as Hrun.
  destruct (ws_star_then nl_plus _) as [rest|]; [|done].
  destruct Hrun as (w1 & w2 & -> & _).
  { simpl. by rewrite Hy. }
  by rewrite existsb_lf_middle in Hnb.
Qed.

Lemma scan_no_match c :
  ∀ acc s,
    (∀ a b, c = a ++ b → b ≠ [] → sep_match (b ++ s) = None) →
    split_from acc (c ++ s) = split_from (reverse c ++ acc) s.
Proof.
  induction c as [|x c IH]; intros acc s Hno; [done|].
  cbn [app]. rewrite split_from_skip by (by apply (Hno [] (x :: c))).
  rewrite IH.
  - by rewrite reverse_cons, <- app_assoc.
  - intros a b -> Hb. by apply (Hno (x :: a) b).
Qed.

Lemma scan_chunk c acc s :
  is_chunk c = true →
  split_from acc (c ++ s) = split_from (reverse c ++ acc) s.
Proof.
  unfold is_chunk. rewrite !andb_true_iff, negb_true_iff.
  intros [[_ Hend] Hnb]. apply scan_no_match.
  intros a b. by apply chunk_suffix_no_match.
Qed.

(** ** Trimming *)

Lemma drop_while_all_space a b :
  all_space a = true → drop_while is_space (a ++ b) = drop_while is_space b.
Proof.
  induction a as [|c a IH]; [done|].
  rewrite all_space_cons. intros [Hc Ha]. simpl. rewrite Hc. by apply IH.
Qed.

Lemma drop_while_clean c b :
  starts_clean c = true → drop_while is_space (c ++ b) = c ++ b.
Proof.
  destruct c as [|x c]; [done|]. simpl.
  intros Hx%negb_true_iff. by rewrite Hx.
Qed.

Lemma trim_chunk a c p :
  all_space a = true → all_space p = true → is_chunk c = true →
  trim (a ++ c ++ p) = c.
Proof.
  unfold is_chunk. rewrite !andb_true_iff.
  intros Ha Hp [[Hstart Hend] _]. unfold trim.
  rewrite drop_while_all_space, drop_while_clean by done.
  rewrite reverse_app, drop_while_all_space by (by apply all_space_reverse).
  rewrite <- (app_nil_r (reverse c)), drop_while_clean by done.
  by rewrite app_nil_r, reverse_involutive.
Qed.

Lemma trim_blank w : all_space w = true → trim w = [].
Proof.
  intros Hw. unfold trim.
  rewrite <- (app_nil_r w), drop_while_all_space by done. done.
Qed.

Lemma texts_blank (blanks : list jsstring) :
  Forall (λ b, all_space b = true) blanks →
  filter (λ p, p ≠ []) (trim <$> blanks) = [].
Proof.
  induction 1 as [|b blanks Hb _ IH]; [done|].
  rewrite fmap_cons, filter_cons_False; [done|].
  rewrite trim_blank by done. by intros ?.
Qed.

Lemma is_chunk_nonempty c : is_chunk c = true → c ≠ [].
Proof. by destruct c. Qed.

Lemma drop_while_clean_or_empty s :
  clean_or_empty (drop_while is_space s) = true.
Proof.
  induction s as [|c s IH]; [done|]. simpl.
  destruct (is_space c) eqn:Hc; [done|]. simpl. by rewrite Hc.
Qed.

Lemma take_drop_while p s : take_while p s ++ drop_while p s = s.
Proof.
  induction s as [|c s IH]; [done|]. simpl.
  destruct (p c); [|done]. simpl. by rewrite IH.
Qed.

(** What [trim] returns has no white space at either end. *)
Lemma trim_ends s :
  trim s ≠ [] →
  starts_clean (trim s) = true ∧ starts_clean (reverse (trim s)) = true.
Proof.
  unfold trim.
  pose proof (drop_while_clean_or_empty s) as Hu.
  set (u := drop_while is_space s) in *.
  pose proof (drop_while_clean_or_empty (reverse u)) as Hv.
  pose proof (take_drop_while is_space (reverse u)) as Hsplit.
  set (v := drop_while is_space (reverse u)) in *.
  intros Hne. split.
  - apply (f_equal reverse) in Hsplit.
    rewrite reverse_app, reverse_involutive in Hsplit.
    destruct (reverse v) as [|x rv]; [done|].
    rewrite <- Hsplit in Hu. done.
  - rewrite reverse_involutive. destruct v; [|done].
    by rewrite reverse_nil in Hne.
Qed.

(** ** The Paragraph Splitter on an input made of chunks and separators *)

Lemma count_lf_exists (s : jsstring) :
  1 ≤ length (filter (λ c, c = LF) s) → existsb is_lf s = true.
Proof.
  induction s as [|c s IH]; [simpl; lia|].
  rewrite filter_cons. cbn [existsb].
  destruct (decide (c = LF)) as [->|Hne]; [done|].
  intros H. rewrite IH by done. by rewrite orb_true_r.
Qed.

Lemma separator_has_boundary s :
  is_separator s = true → all_space s = true ∧ has_boundary s = true.
Proof.
  unfold is_separator. rewrite andb_true_iff, bool_decide_eq_true.
  intros [Hall Hcount]. split; [done|].
  induction s as [|c s IH]; [simpl in Hcount; lia|].
  apply all_space_cons in Hall as [Hc Hs].
  rewrite has_boundary_blank by done.
  rewrite filter_cons in Hcount.
  destruct (decide (c = LF)) as [->|Hne].
  - simpl in Hcount. rewrite count_lf_exists by lia. done.
  - rewrite IH by done. by rewrite orb_true_r.
Qed.

Lemma join_chunks_clean c rest tail :
  is_chunk c = true → clean_or_empty (join_chunks c rest ++ tail) = true.
Proof.
  intros Hc. assert (∃ x more, join_chunks c rest = x :: more
                               ∧ is_space x = false) as (x & more & -> & Hx).
  { unfold is_chunk in Hc. rewrite !andb_true_iff in Hc.
    destruct Hc as [[Hstart _] _].
    destruct c as [|x c]; [done|]. simpl in Hstart.
    apply negb_true_iff in Hstart.
    destruct rest as [|[s c'] rest]; simpl; eauto. }
  simpl. by rewrite Hx.
Qed.

Lemma texts_pending_chunk acc c pre (pieces : list jsstring) :
  all_space acc = true → all_space pre = true → is_chunk c = true →
  filter (λ p, p ≠ [])
    (trim <$> (reverse (reverse c ++ acc) ++ pre) :: pieces)
  = c :: filter (λ p, p ≠ []) (trim <$> pieces).
Proof.
  intros Hacc Hpre Hc.
  rewrite fmap_cons, reverse_app, reverse_involutive, <- app_assoc.
  rewrite trim_chunk by (done || by apply all_space_reverse).
  rewrite filter_cons_True by (by apply is_chunk_nonempty). done.
Qed.

Lemma texts_chunks (rest : list (jsstring * jsstring)) :
  ∀ c acc trail,
    all_space acc = true → all_space trail = true → is_chunk c = true →
    Forall (λ sc, is_separator sc.1 = true ∧ is_chunk sc.2 = true) rest →
    texts_from acc (join_chunks c rest ++ trail) = c :: (snd <$> rest).
Proof.
  induction rest as [|[s c'] rest IH]; intros c acc trail Hacc Htrail Hc Hrest.
  - unfold texts_from. simpl. rewrite scan_chunk by done.
    rewrite <- (app_nil_r trail).
    pose proof (scan_blank trail (reverse c ++ acc) [] Htrail eq_refl) as Hscan.
    destruct (has_boundary trail).
    + destruct Hscan as (pre & blanks & acc' & Hpre & Hblanks & Hacc' & ->).
      rewrite texts_pending_chunk by done. f_equal.
      apply texts_blank. apply Forall_app. split; [done|].
      rewrite split_from_nil. repeat constructor.
      by apply all_space_reverse.
    + rewrite Hscan, split_from_nil.
      rewrite !reverse_app, !reverse_involutive, <- app_assoc.
      rewrite fmap_cons.
      rewrite trim_chunk by (done || by apply all_space_reverse).
      rewrite filter_cons_True by (by apply is_chunk_nonempty). done.
  - apply Forall_cons in Hrest as [[Hs Hc'] Hrest]. simpl in Hs, Hc'.
    apply separator_has_boundary in Hs as [Hs Hb].
    unfold texts_from. cbn [join_chunks fmap list_fmap snd].
    rewrite <- !app_assoc. rewrite scan_chunk by done.
    pose proof (scan_blank s (reverse c ++ acc)
                  (join_chunks c' rest ++ trail) Hs
                  (join_chunks_clean c' rest trail Hc')) as Hscan.
    rewrite Hb in Hscan.
    destruct Hscan as (pre & blanks & acc' & Hpre & Hblanks & Hacc' & ->).
    rewrite texts_pending_chunk by done. f_equal.
    rewrite fmap_app, filter_app, texts_blank by done. simpl.
    by apply IH.
Qed.

Lemma texts_input lead c rest trail :
  all_space lead = true → all_space trail = true → is_chunk c = true →
  Forall (λ sc, is_separator sc.1 = true ∧ is_chunk sc.2 = true) rest →
  filter (λ p, p ≠ [])
    (trim <$> split_paragraphs (lead ++ join_chunks c rest ++ trail))
  = c :: (snd <$> rest).
Proof.
  intros Hlead Htrail Hc Hrest. unfold split_paragraphs.
  pose proof (scan_blank lead [] (join_chunks c rest ++ trail) Hlead
                (join_chunks_clean c rest trail Hc)) as Hscan.
  destruct (has_boundary lead).
  - destruct Hscan as (pre & blanks & acc' & Hpre & Hblanks & Hacc' & ->).
    rewrite fmap_cons, filter_cons_False.
    2:{ rewrite trim_blank; [by intros ?|]. by rewrite reverse_nil. }
    rewrite fmap_app, filter_app, texts_blank by done. simpl.
    by apply texts_chunks.
  - rewrite Hscan. apply texts_chunks; try done.
    rewrite app_nil_r. by apply all_space_reverse.
Qed.

Lemma texts_all_blank (blank : jsstring) :
  all_space blank = true →
  filter (λ p, p ≠ []) (trim <$> split_paragraphs blank) = [].
Proof.
  intros Hb. unfold split_paragraphs. rewrite <- (app_nil_r blank).
  pose proof (scan_blank blank [] [] Hb eq_refl) as Hscan.
  apply texts_blank.
  destruct (has_boundary blank).
  - destruct Hscan as (pre & blanks & acc' & Hpre & Hblanks & Hacc' & ->).
    constructor; [by rewrite reverse_nil|].
    apply Forall_app. split; [done|].
    rewrite split_from_nil. repeat constructor. by apply all_space_reverse.
  - rewrite Hscan, split_from_nil. repeat constructor.
    rewrite app_nil_r, reverse_involutive. done.
Qed.

Lemma parseTextToParagraphs_lookup es input k i p :
  parseTextToParagraphs es input k !! i = Some p →
  ∃ chunk,
    filter (λ p, p ≠ []) (trim <$> split_paragraphs input) !! i = Some chunk
    ∧ p = {| id := draft_para_id k i (es i);
             text := chunk;
             sourceDraftIndex := Some k;
             sourceParaIndex := Some i;
             originalId := Some (draft_para_id k i (es i)) |}.
Proof.
  unfold parseTextToParagraphs. rewrite list_lookup_imap.
  destruct (_ !! i) as [chunk|]; [|done].
  intros [= <-]. by exists chunk.
Qed.

(** C1: an input made of [N] chunks (each one not empty, without white
    space at its ends and without a boundary inside), with a separator
    (white space holding two newlines or more) between consecutive chunks
    and any white space before the first and after the last, is split into
    exactly [N] paragraphs whose texts are the chunks, in order.  Whatever
    the input, the paragraph at position [i] carries the given draft index,
    [i] as [sourceParaIndex], the id minted for it and that same id as
    [originalId], and its text is not empty and has no white space at
    either end; paragraphs at different positions have different ids.  The
    id is freshly minted: it is built from the draft index, the position
    and the reading of the clock and of the random source made for this
    paragraph, and from nothing else, so that a paragraph of any call of
    the Splitter, on any input, has the same id only when it has the same
    draft index and position and was built from the same reading.  An input
    of white space only gives no paragraph. *)
Theorem parseTextToParagraphs_chunks (es : nat → Entropy) (k : nat)
    (lead c : jsstring) (rest : list (jsstring * jsstring))
    (trail : jsstring) :
  all_space lead = true → all_space trail = true → is_chunk c = true →
  Forall (λ sc, is_separator sc.1 = true ∧ is_chunk sc.2 = true) rest →
  let chunks := c :: (snd <$> rest) in
  let ps :=
    parseTextToParagraphs es (lead ++ join_chunks c rest ++ trail) k in
  text <$> ps = chunks
  ∧ length ps = S (length rest)
  ∧ (∀ input i p,
       parseTextToParagraphs es input k !! i = Some p →
       id p = draft_para_id k i (es i)
       ∧ sourceDraftIndex p = Some k
       ∧ sourceParaIndex p = Some i
       ∧ originalId p = Some (id p)
       ∧ text p ≠ []
       ∧ starts_clean (text p) = true
       ∧ starts_clean (reverse (text p)) = true
       ∧ (∀ k' i' e', draft_para_id k' i' e' = id p →
                      k' = k ∧ i' = i ∧ e' = es i))
  ∧ (∀ input i j p q,
       parseTextToParagraphs es input k !! i = Some p →
       parseTextToParagraphs es input k !! j = Some q →
       id p = id q → i = j)
  ∧ (∀ es' input input' k' i j p q,
       parseTextToParagraphs es input k !! i = Some p →
       parseTextToParagraphs es' input' k' !! j = Some q →
       id p = id q → k' = k ∧ j = i ∧ es' j = es i)
  ∧ (∀ blank, all_space blank = true →
              parseTextToParagraphs es blank k = []).
Proof.
  intros Hlead Htrail Hc Hrest chunks ps.
  pose proof (texts_input lead c rest trail Hlead Htrail Hc Hrest) as Htexts.
  assert (text <$> ps = chunks) as Hps.
  { unfold ps, parseTextToParagraphs. rewrite Htexts.
    rewrite (fmap_imap_pointwise _ _ (λ chunk, chunk)) by done.
    apply list_fmap_id. }
  split; [done|]. split.
  { rewrite <- (length_fmap text), Hps. unfold chunks. simpl.
    by rewrite length_fmap. }
  split.
  - intros input i p Hp.
    apply parseTextToParagraphs_lookup in Hp as (chunk & Hchunk & ->).
    simpl. repeat (split; [done|]).
    apply list_elem_of_lookup_2, list_elem_of_filter in Hchunk
      as [Hne Hchunk].
    apply list_elem_of_fmap in Hchunk as (piece & -> & _).
    split; [done|].
    destruct (trim_ends piece Hne) as [Hstart Hend].
    split; [done|]. split; [done|].
    intros k' i' e' Hid. by apply draft_para_id_inj in Hid.
  - split; [|split].
    + intros input i j p q Hp Hq.
      apply parseTextToParagraphs_lookup in Hp as (? & _ & ->).
      apply parseTextToParagraphs_lookup in Hq as (? & _ & ->).
      simpl. intros Hid. by apply draft_para_id_inj in Hid as (_ & ? & _).
    + intros es' input input' k' i j p q Hp Hq.
      apply parseTextToParagraphs_lookup in Hp as (? & _ & ->).
      apply parseTextToParagraphs_lookup in Hq as (? & _ & ->).
      simpl. intros Hid. symmetry in Hid.
      by apply draft_para_id_inj in Hid.
    + intros blank Hblank. unfold parseTextToParagraphs.
      by rewrite texts_all_blank.
Qed.

(** The example of the specification: "A\n\nB\n\n\nC". *)
Lemma parseTextToParagraphs_chunks_witness :
  text <$> parseTextToParagraphs sample_entropy
             (lit "A" ++ [LF; LF] ++ lit "B" ++ [LF; LF; LF] ++ lit "C") 0
  = [lit "A"; lit "B"; lit "C"].
Proof.
  exact (proj1 (parseTextToParagraphs_chunks sample_entropy 0
                  [] (lit "A")
                  [([LF; LF], lit "B"); ([LF; LF; LF], lit "C")] []
                  eq_refl eq_refl eq_refl
                  ltac:(repeat constructor))).
Defined.

(** White space around the chunks and inside the separators, and a single
    newline inside a chunk. *)
Example parseTextToParagraphs_tolerant :
  text <$> parseTextToParagraphs sample_entropy
             (lit "  A a" ++ [LF] ++ lit "x " ++ [LF] ++ lit "  " ++ [LF]
                ++ lit " B" ++ [13%N; LF; 13%N; LF] ++ lit "C" ++ [LF]) 2
  = [lit "A a" ++ [LF] ++ lit "x"; lit "B"; lit "C"].
Proof. vm_compute. reflexivity. Qed.

(** ** The reflected set *)

Lemma Boolean_Some (o : option jsstring) :
  Boolean o = true ↔ ∃ s, o = Some s ∧ s ≠ [].
Proof.
  destruct o as [[|c s]|]; simpl; split; try done.
  - intros (s & [= <-] & Hs). done.
  - intros _. by eexists.
  - intros (s & [=] & _).
Qed.

Lemma elem_of_reflectedIds (fp : list Paragraph) (s : jsstring) :
  s ∈ reflectedIds fp ↔ ∃ p, p ∈ fp ∧ originalId p = Some s ∧ s ≠ [].
Proof.
  unfold reflectedIds. rewrite elem_of_list_to_set, list_elem_of_omap.
  split.
  - intros (o & Ho & ->).
    apply list_elem_of_filter in Ho as [Hb Ho].
    apply list_elem_of_fmap in Ho as (p & Hp & Hin).
    apply Boolean_Some in Hb as (s' & [= <-] & Hne).
    exists p. done.
  - intros (p & Hin & Ho & Hne).
    exists (Some s). split; [|done].
    apply list_elem_of_filter. split.
    + apply Boolean_Some. by exists s.
    + apply list_elem_of_fmap. by exists p.
Qed.

(** C4, as stated, fails: an [originalId] that is defined but is the empty
    string is dropped by [filter(Boolean)], so it is not in the reflected
    set although an entry of the manuscript carries it. *)
Lemma reflectedIds_drops_empty_string :
  ¬ ([] ∈ reflectedIds [empty_origin_entry]
     ↔ ∃ p, p ∈ [empty_origin_entry] ∧ originalId p = Some []).
Proof.
  intros [_ H].
  assert ([] ∈ reflectedIds [empty_origin_entry]) as Hin.
  { apply H. exists empty_origin_entry. split; [|done].
    apply elem_of_cons. by left. }
  apply elem_of_reflectedIds in Hin as (p & _ & _ & Hne). done.
Qed.

Lemma elem_of_addParagraphToFinal e p atIndex prev q :
  q ∈ addParagraphToFinal e p atIndex prev
  ↔ q = {| id := final_id e;
           text := text p;
           sourceDraftIndex := sourceDraftIndex p;
           sourceParaIndex := sourceParaIndex p;
           originalId := Some (or_else (originalId p) (id p)) |}
    ∨ q ∈ prev.
Proof.
  unfold addParagraphToFinal. destruct atIndex as [i|].
  - apply elem_of_splice_in.
  - rewrite elem_of_app, elem_of_cons, elem_of_nil. tauto.
Qed.

(** C4, amended: whatever the final manuscript is, the reflected set is
    exactly the set of the [originalId]s of its entries that are defined and
    not the empty string; it is a function of the current manuscript alone,
    so it follows every change of the manuscript: right after an insertion
    it holds what it held before and the (non-empty) [originalId] of the
    inserted copy, and right after [removeAllFromDraft] it holds the
    [originalId]s of the entries that are left. *)
Theorem reflectedIds_exact (fp : list Paragraph) :
  (∀ s : jsstring,
     s ∈ reflectedIds fp ↔ ∃ p, p ∈ fp ∧ originalId p = Some s ∧ s ≠ [])
  ∧ reflectedIds fp
    = list_to_set
        (omap (λ p, match originalId p with
                    | Some s => if decide (s = []) then None else Some s
                    | None => None
                    end) fp)
  ∧ (∀ e p atIndex s,
       s ∈ reflectedIds (addParagraphToFinal e p atIndex fp)
       ↔ s ∈ reflectedIds fp
         ∨ (s = or_else (originalId p) (id p) ∧ s ≠ []))
  ∧ (∀ k ds dis s,
       s ∈ reflectedIds
             (finalParagraphs (removeAllFromDraft k (mkState ds fp dis)))
       ↔ ∃ p, p ∈ fp ∧ sourceDraftIndex p ≠ Some k
              ∧ originalId p = Some s ∧ s ≠ []).
Proof.
  split; [apply elem_of_reflectedIds|].
  split; [|split].
  2:{ intros e p atIndex s. rewrite !elem_of_reflectedIds. split.
      - intros (q & Hq & Ho & Hne).
        apply elem_of_addParagraphToFinal in Hq as [->|Hq].
        + right. simpl in Ho. by injection Ho as <-.
        + left. by exists q.
      - intros [(q & Hq & Ho & Hne)|[-> Hne]].
        + exists q. split; [|done].
          apply elem_of_addParagraphToFinal. by right.
        + eexists. split; [apply elem_of_addParagraphToFinal; by left|].
          done. }
  2:{ intros k ds dis s. rewrite elem_of_reflectedIds. simpl. split.
      - intros (p & [Hk Hp]%list_elem_of_filter & Ho & Hne). by exists p.
      - intros (p & Hp & Hk & Ho & Hne). exists p. split; [|done].
        by apply list_elem_of_filter. }
  apply set_eq. intros s.
  rewrite elem_of_reflectedIds, elem_of_list_to_set, list_elem_of_omap.
  split.
  - intros (p & Hin & Ho & Hne). exists p. split; [done|].
    rewrite Ho. by rewrite decide_False.
  - intros (p & Hin & Ho). exists p. split; [done|].
    destruct (originalId p) as [s'|]; [|done].
    destruct (decide (s' = [])) as [|Hne]; [done|].
    injection Ho as ->. done.
Qed.

(** ** Adding all unreflected paragraphs of a draft *)






(** ** Inserting one paragraph in the final manuscript *)

Lemma or_else_cases (a : option jsstring) (b : jsstring) :
  (∀ s, a = Some s → s ≠ [] → or_else a b = s)
  ∧ (a = None ∨ a = Some [] → or_else a b = b).
Proof.
  split.
  - intros s -> Hs. destruct s; done.
  - intros [->| ->]; done.
Qed.

(** C5, as stated, fails: the [originalId] of the source is present (it is
    the empty string), yet the copy does not carry it but the source's id.
    Besides, a position past the end is not where the copy lands: asked for
    position 5 in a manuscript of three entries, the copy stands at
    position 3. *)
Lemma addParagraphToFinal_empty_originalId :
  (∃ q, addParagraphToFinal (mkEntropy 2 (lit "0.25")) empty_origin_source
          None [] = [q]
        ∧ originalId q ≠ originalId empty_origin_source
        ∧ originalId q = Some (id empty_origin_source))
  ∧ addParagraphToFinal (mkEntropy 2 (lit "0.25")) empty_origin_source
      (Some 5) sample_final !! 5 = None
  ∧ id <$> addParagraphToFinal (mkEntropy 2 (lit "0.25")) empty_origin_source
             (Some 5) sample_final !! 3
    = Some (final_id (mkEntropy 2 (lit "0.25"))).
Proof.
  split; [|split; reflexivity].
  eexists. split; [reflexivity|]. split; [|reflexivity].
  vm_compute. discriminate.
Qed.

(** C5, amended: [append] inserts exactly one copy of [p]; the copy has the
    id minted for the final store and the source's text and source indices;
    that id comes from the reading of the clock and of the random source
    made for this insertion and from no other reading; the [originalId] of
    the copy is that of [p] when [p] has one that is not the empty string,
    and the id of [p] otherwise.  With [atIndex] given the copy
    stands at that position (at the end when [atIndex] is past the end),
    otherwise at the end; the entries before it and after it are the
    previous ones, unchanged and in order. *)
Theorem addParagraphToFinal_inserts_copy (e : Entropy) (p : Paragraph)
    (atIndex : option nat) (prev : list Paragraph) :
  ∃ (q : Paragraph) (k : nat),
    id q = final_id e
    ∧ (∀ e', final_id e' = id q → e' = e)
    ∧ text q = text p
    ∧ sourceDraftIndex q = sourceDraftIndex p
    ∧ sourceParaIndex q = sourceParaIndex p
    ∧ (∀ o, originalId p = Some o → o ≠ [] → originalId q = Some o)
    ∧ (originalId p = None ∨ originalId p = Some [] →
       originalId q = Some (id p))
    ∧ k = match atIndex with
          | Some i => i `min` length prev
          | None => length prev
          end
    ∧ addParagraphToFinal e p atIndex prev = take k prev ++ q :: drop k prev
    ∧ addParagraphToFinal e p atIndex prev !! k = Some q
    ∧ delete k (addParagraphToFinal e p atIndex prev) = prev
    ∧ length (addParagraphToFinal e p atIndex prev) = S (length prev).
Proof.
  destruct (or_else_cases (originalId p) (id p)) as [Hsome Hnone].
  eexists (mkParagraph _ _ _ _ _), _.
  split; [reflexivity|]. split; [intros e'; apply final_id_inj|].
  split; [reflexivity|].
  split; [reflexivity|]. split; [reflexivity|].
  split; [intros o Ho Hne; simpl; f_equal; by apply Hsome|].
  split; [intros Ho; simpl; f_equal; by apply Hnone|].
  split; [reflexivity|].
  unfold addParagraphToFinal.
  set (q := mkParagraph _ _ _ _ _).
  assert (∀ i, splice_in i q prev
               = take (i `min` length prev) prev
                   ++ q :: drop (i `min` length prev) prev) as Hclamp.
  { intros i. unfold splice_in. destruct (decide (i ≤ length prev)).
    - by rewrite Nat.min_l by lia.
    - rewrite Nat.min_r by lia. by rewrite !take_ge, !drop_ge by lia. }
  destruct atIndex as [i|].
  - split; [apply Hclamp|]. split; [apply splice_in_lookup|].
    split; [apply splice_in_delete|apply splice_in_length].
  - rewrite take_ge, drop_ge by lia.
    split; [done|]. split.
    { rewrite lookup_app_r by lia. by rewrite Nat.sub_diag. }
    split.
    { replace (prev ++ [q]) with (prev ++ q :: []) by done.
      rewrite delete_middle. by rewrite app_nil_r. }
    rewrite length_app. simpl. lia.
Qed.

(** ** Reordering the final manuscript *)

Lemma moveParagraphInFinal_back (l : list Paragraph) (i j : nat) :
  i < length l → j < length l →
  ∃ l', moveParagraphInFinal i j l = Reordered l'
        ∧ moveParagraphInFinal j i l' = Reordered l.
Proof.
  intros Hi Hj.
  destruct (lookup_lt_is_Some_2 l i Hi) as [x Hx].
  exists (splice_in j x (delete i l)).
  unfold moveParagraphInFinal. rewrite Hx. split; [done|].
  assert (length (delete i l) = length l - 1) as Hlen.
  { rewrite length_delete by eauto. done. }
  assert (j `min` length (delete i l) = j) as Hmin by lia.
  pose proof (splice_in_lookup j x (delete i l)) as Hl.
  pose proof (splice_in_delete j x (delete i l)) as Hd.
  rewrite Hmin in Hl, Hd. rewrite Hl, Hd.
  by rewrite splice_in_removed.
Qed.

(** C6: on a final manuscript of length at least 2, with [i] and [j] both
    indices of the manuscript, [move(i, j)] followed by [move(j, i)] gives
    back the original sequence; each move takes the element out at its first
    argument and puts it in at its second argument in the shortened list. *)
Theorem move_then_move_back (l : list Paragraph) (i j : nat) :
  2 ≤ length l → i < length l → j < length l →
  ∃ x l',
    l !! i = Some x
    ∧ l' = splice_in j x (delete i l)
    ∧ moveParagraphInFinal i j l = Reordered l'
    ∧ moveParagraphInFinal j i l' = Reordered l.
Proof.
  intros _ Hi Hj.
  destruct (lookup_lt_is_Some_2 l i Hi) as [x Hx].
  destruct (moveParagraphInFinal_back l i j Hi Hj) as (l' & H1 & H2).
  exists x, l'. split; [done|].
  assert (l' = splice_in j x (delete i l)) as ->.
  { unfold moveParagraphInFinal in H1. rewrite Hx in H1. congruence. }
  done.
Qed.

Lemma move_then_move_back_witness :
  ∃ x l',
    sample_final !! 0 = Some x
    ∧ l' = splice_in 2 x (delete 0 sample_final)
    ∧ moveParagraphInFinal 0 2 sample_final = Reordered l'
    ∧ moveParagraphInFinal 2 0 l' = Reordered sample_final.
Proof.
  apply (move_then_move_back sample_final 0 2); simpl; lia.
Defined.

(** ** Removing a draft's entries from the final manuscript *)

Lemma updateDraftContent_final es idx text0 st :
  finalParagraphs (updateDraftContent es idx text0 st) = finalParagraphs st.
Proof. done. Qed.

Lemma removeAllFromDraft_elem k st p :
  p ∈ finalParagraphs (removeAllFromDraft k st)
  ↔ p ∈ finalParagraphs st ∧ sourceDraftIndex p ≠ Some k.
Proof. simpl. rewrite list_elem_of_filter. tauto. Qed.

Lemma parseTextToParagraphs_tagged es input k p :
  p ∈ parseTextToParagraphs es input k → sourceDraftIndex p = Some k.
Proof.
  intros [i Hi]%list_elem_of_lookup.
  by apply parseTextToParagraphs_lookup in Hi as (chunk & _ & ->).
Qed.

Lemma final_copies_tagged es (toAdd : list Paragraph) (k : nat) (q : Paragraph) :
  (∀ p, p ∈ toAdd → sourceDraftIndex p = Some k) →
  q ∈ final_copies es toAdd → sourceDraftIndex q = Some k.
Proof.
  intros Htag [i Hi]%list_elem_of_lookup.
  unfold final_copies in Hi. rewrite list_lookup_imap in Hi.
  destruct (toAdd !! i) as [p|] eqn:Hp; [|done].
  injection Hi as <-. simpl. by eapply Htag, list_elem_of_lookup_2.
Qed.

(** Split a text into draft [k], add all of the draft to the final
    manuscript, replace the content of the draft, then remove all of draft
    [k]: the final manuscript is what it was at the start, less the entries
    it already held for draft [k]. *)
Lemma removeAllFromDraft_removes_copies (es0 es1 es2 : nat → Entropy)
    (k : nat) (text0 newText : jsstring) (st : AppState) :
  ∃ st1,
    addAllFromDraft es1 k (updateDraftContent es0 k text0 st) = Ok st1
    ∧ finalParagraphs
        (removeAllFromDraft k (updateDraftContent es2 k newText st1))
      = filter (λ p, sourceDraftIndex p ≠ Some k) (finalParagraphs st).
Proof.
  unfold addAllFromDraft, addAllFromDraft_queued. cbn [updateDraftContent drafts finalParagraphs].
  rewrite js_get_js_set, decide_True by done.
  eexists. split; [reflexivity|].
  cbn [removeAllFromDraft updateDraftContent finalParagraphs].
  rewrite filter_app.
  rewrite <- (app_nil_r (filter _ (finalParagraphs st))) at 2. f_equal.
  apply filter_none. intros q Hq Hne. apply Hne.
  apply (final_copies_tagged es1 _ k q) in Hq; [done|].
  intros p [_ Hp]%list_elem_of_filter.
  apply (parseTextToParagraphs_tagged es0 text0).
  by destruct (js_get (drafts st) k).
Qed.

(** C7: [removeAllFromDraft(k)] keeps, in order, the entries whose stored
    [sourceDraftIndex] is not [k] and removes the others, whatever the
    drafts hold; replacing the content of draft [k] beforehand changes
    nothing in what is removed, and none of the entries tagged [k] is left.
    In particular the copies made by [addAll(k)] of the paragraphs split
    into draft [k] carry the tag [k] and are removed even after the content
    of the draft has been replaced. *)
Theorem removeAllFromDraft_after_replace (es : nat → Entropy) (k : nat)
    (newText : jsstring) (st : AppState) :
  let st' := updateDraftContent es k newText st in
  finalParagraphs (removeAllFromDraft k st')
    = filter (λ p, sourceDraftIndex p ≠ Some k) (finalParagraphs st)
  ∧ finalParagraphs (removeAllFromDraft k st')
    = finalParagraphs (removeAllFromDraft k st)
  ∧ (∀ p, p ∈ finalParagraphs (removeAllFromDraft k st')
          ↔ p ∈ finalParagraphs st ∧ sourceDraftIndex p ≠ Some k)
  ∧ (∀ p, p ∈ finalParagraphs st → sourceDraftIndex p = Some k →
          p ∉ finalParagraphs (removeAllFromDraft k st'))
  ∧ drafts (removeAllFromDraft k st') = drafts st'
  ∧ (∀ es0 es1 text0,
       ∃ st1,
         addAllFromDraft es1 k (updateDraftContent es0 k text0 st) = Ok st1
         ∧ finalParagraphs
             (removeAllFromDraft k (updateDraftContent es k newText st1))
           = filter (λ p, sourceDraftIndex p ≠ Some k) (finalParagraphs st)).
Proof.
  intros st'. split; [done|]. split; [done|].
  split; [|split; [|split; [done|]]].
  - intros p. apply (removeAllFromDraft_elem k st').
  - intros p _ Hk Hp. apply removeAllFromDraft_elem in Hp. tauto.
  - intros es0 es1 text0. apply removeAllFromDraft_removes_copies.
Qed.

Lemma handleImageFiles_cases e_img e_final files atIndex prev :
  handleImageFiles e_img e_final files atIndex prev = prev
  ∨ ∃ file base64,
      files !! 0 = Some file
      ∧ dataURL file = Some base64
      ∧ handleImageFiles e_img e_final files atIndex prev
        = splice_in atIndex
            {| id := final_id e_final;
               text := lit "![" ++ name file ++ lit "](" ++ base64 ++ lit ")";
               sourceDraftIndex := None;
               sourceParaIndex := None;
               originalId := Some (lit "img-" ++ show (now e_img)) |} prev.
Proof.
  unfold handleImageFiles.
  destruct (files !! 0) as [file|]; [|by left].
  destruct (startsWith _ _); [|by left].
  destruct (dataURL file) as [base64|] eqn:Hurl; [|by left].
  right. exists file, base64. repeat split; try done.
Qed.

Lemma handlePolish_untagged ai nows fp fp' :
  handlePolish ai nows fp = Ok fp' →
  Forall (λ p, sourceDraftIndex p = None) fp'.
Proof.
  unfold handlePolish. destruct fp as [|p0 fp].
  { intros [= <-]. constructor. }
  destruct (polishManuscript _ _) as [polished|e]; simpl; [|done].
  intros [= <-]. apply Forall_forall. intros p Hp.
  apply list_elem_of_lookup in Hp as [i Hi].
  rewrite list_lookup_imap in Hi.
  destruct (_ !! i); simplify_eq/=. done.
Qed.

(** C10: [removeAllFromDraft(k)] leaves every entry without a
    [sourceDraftIndex] in place and in order.  The entry
    [handleImageFiles] inserts and the entries [handlePolish] builds from
    the gateway's text have no [sourceDraftIndex], so they are among those
    that stay. *)
Theorem removeAllFromDraft_keeps_untagged (k : nat) (st : AppState) :
  filter (λ p, sourceDraftIndex p = None)
         (finalParagraphs (removeAllFromDraft k st))
    = filter (λ p, sourceDraftIndex p = None) (finalParagraphs st)
  ∧ (∀ p, p ∈ finalParagraphs st → sourceDraftIndex p = None →
          p ∈ finalParagraphs (removeAllFromDraft k st))
  ∧ (∀ e_img e_final files atIndex,
       let fp := handleImageFiles e_img e_final files atIndex
                   (finalParagraphs st) in
       fp = finalParagraphs st
       ∨ ∃ img, fp = splice_in atIndex img (finalParagraphs st)
                ∧ sourceDraftIndex img = None
                ∧ img ∈ finalParagraphs
                          (removeAllFromDraft k
                             (mkState (drafts st) fp
                                (dismissedParagraphIds st))))
  ∧ (∀ ai nows fp',
       handlePolish ai nows (finalParagraphs st) = Ok fp' →
       finalParagraphs
         (removeAllFromDraft k
            (mkState (drafts st) fp' (dismissedParagraphIds st))) = fp').
Proof.
  split; [|split; [|split]].
  - simpl. apply list_filter_filter_l. intros p ->. done.
  - intros p Hp Hnone. apply removeAllFromDraft_elem. split; [done|].
    by rewrite Hnone.
  - intros e_img e_final files atIndex fp. subst fp.
    destruct (handleImageFiles_cases e_img e_final files atIndex
                (finalParagraphs st)) as [Heq|(file & base64 & _ & _ & Heq)].
    { by left. }
    right. eexists. split; [exact Heq|]. split; [done|].
    apply removeAllFromDraft_elem. simpl. split; [|done].
    rewrite Heq. unfold splice_in.
    apply elem_of_app. right. apply elem_of_cons. by left.
  - intros ai nows fp' Hp. simpl.
    apply handlePolish_untagged in Hp.
    induction Hp as [|p fp' Hnone _ IH]; [done|].
    rewrite filter_cons_True by (by rewrite Hnone). by rewrite IH.
Qed.

(** ** Loading the persisted state *)

Lemma init_never_throws (JSON_parse : jsstring → Res JSON)
    (saved : option jsstring) :
  (∃ v, init_drafts JSON_parse saved = Ok v)
  ∧ (∃ v, init_finalParagraphs JSON_parse saved = Ok v)
  ∧ (∃ v, init_dismissedParagraphIds JSON_parse saved = Ok v).
Proof.
  unfold init_drafts, init_finalParagraphs, init_dismissedParagraphIds.
  destruct saved as [s|]; simpl; [|by eauto 7].
  destruct (truthy s); simpl; [|by eauto 7].
  destruct (JSON_parse s) as [parsed|e]; simpl; [|by eauto 7].
  split; [|split].
  - destruct (get_prop parsed _) as [v|e]; simpl; eauto.
  - destruct (get_prop parsed _) as [v|e]; simpl; eauto.
  - destruct (get_prop parsed _) as [[v|]|e]; simpl; eauto.
    destruct (set_elements v); destruct v; simpl; eauto;
      case_match; simpl; eauto.
Qed.

(** C8: when nothing is stored under the key, or what is stored does not
    parse, each of the three initializers returns its default, and returns
    it normally: the three drafts numbered 1 to 3 with their fixed titles
    and no paragraph, the empty final manuscript, the empty dismissed set. *)
Theorem init_state_default (JSON_parse : jsstring → Res JSON)
    (saved : option jsstring) :
  saved = None ∨ (∃ s e, saved = Some s ∧ JSON_parse s = Throw e) →
  init_drafts JSON_parse saved = Ok (Fallback default_drafts)
  ∧ init_finalParagraphs JSON_parse saved = Ok (Fallback [])
  ∧ init_dismissedParagraphIds JSON_parse saved = Ok (Fallback ∅)
  ∧ default_drafts
    = (λ n, Some {| draftId := Some n; title := Some (draft_title (N.of_nat n));
                    customTitle := Some []; paragraphs := [] |}) <$> [1; 2; 3].
Proof.
  intros Hsaved.
  unfold init_drafts, init_finalParagraphs, init_dismissedParagraphIds.
  destruct Hsaved as [->|(s & e & -> & Hparse)]; simpl.
  - done.
  - rewrite Hparse. by destruct (truthy s).
Qed.

Lemma init_state_default_witness :
  init_drafts sample_parse (Some (lit "{oops")) = Ok (Fallback default_drafts)
  ∧ init_finalParagraphs sample_parse (Some (lit "{oops")) = Ok (Fallback [])
  ∧ init_dismissedParagraphIds sample_parse (Some (lit "{oops"))
    = Ok (Fallback ∅).
Proof.
  destruct (init_state_default sample_parse (Some (lit "{oops")))
    as (Hd & Hf & Hs & _).
  { right. exists (lit "{oops"), SyntaxError. split; reflexivity. }
  exact (conj Hd (conj Hf Hs)).
Defined.

(** ** Importing several files at once *)

Section GlobalUploadProperties.
Variable localeCompare : jsstring → jsstring → Z.




Hypothesis localeCompare_total :
  ∀ a b, (localeCompare a b ≤ 0 ∨ localeCompare b a ≤ 0)%Z.


End GlobalUploadProperties.





(** ** AI gateway: which errors are absorbed *)

(** An error thrown by the generation call is caught: [polish] answers with
    its input. *)
Lemma polishManuscript_endpoint_error (ai : GoogleGenAI) (input : jsstring)
    (e : exn) :
  newGoogleGenAI ai = Ok () →
  (∀ req, generateContent ai req = Throw e) →
  polishManuscript ai input = Ok input.
Proof.
  intros Hnew Hgen. unfold polishManuscript.
  rewrite Hnew. simpl. rewrite Hgen. reflexivity.
Qed.

(** An error thrown by the generation call is caught: [synthesize] answers
    with the fixed failure text. *)
Lemma suggestSynthesis_endpoint_error (ai : GoogleGenAI)
    (inputs : list jsstring) (e : exn) :
  newGoogleGenAI ai = Ok () →
  (∀ req, generateContent ai req = Throw e) →
  suggestSynthesis ai inputs = Ok synthesis_failed.
Proof.
  intros Hnew Hgen. unfold suggestSynthesis.
  rewrite Hnew. simpl. rewrite Hgen. reflexivity.
Qed.

(** Once the client is constructed, neither call throws. *)
Lemma gateway_total_after_construction (ai : GoogleGenAI)
    (input : jsstring) (inputs : list jsstring) :
  newGoogleGenAI ai = Ok () →
  (∃ r, polishManuscript ai input = Ok r)
  ∧ (∃ r, suggestSynthesis ai inputs = Ok r).
Proof.
  intros Hnew. unfold polishManuscript, suggestSynthesis.
  rewrite Hnew. simpl. split.
  - destruct (generateContent ai _); simpl; eauto.
  - destruct (generateContent ai _); simpl; eauto.
Qed.

(** C3: an error thrown while the client is constructed, which happens
    before the [try] block, is not absorbed: both [polish] and [synthesize]
    pass it on to their caller, whatever the generation call would do. *)
Theorem gateway_constructor_error_escapes (e : exn)
    (gen : GenerateContentParameters → Res (option jsstring))
    (input : jsstring) (inputs : list jsstring) :
  let ai := {| newGoogleGenAI := Throw e; generateContent := gen |} in
  polishManuscript ai input = Throw e
  ∧ suggestSynthesis ai inputs = Throw e.
Proof. split; reflexivity. Qed.

(** * Part IV: further properties of the code *)

(** ** What the Paragraph Splitter returns *)

Lemma app_snoc_suffix (a b x : jsstring) (c : N) :
  a ++ b = x ++ [c] → b ≠ [] → ∃ b0, b = b0 ++ [c] ∧ x = a ++ b0.
Proof.
  intros Heq Hb.
  destruct (reverse b) as [|y rb] eqn:Hrev.
  { apply (f_equal reverse) in Hrev. rewrite reverse_involutive in Hrev.
    done. }
  apply (f_equal reverse) in Hrev. rewrite reverse_involutive in Hrev.
  rewrite reverse_cons in Hrev. subst b.
  rewrite app_assoc in Heq. apply app_inj_tail in Heq as [<- <-].
  by exists (reverse rb).
Qed.

(** In a piece that [split] returns the pattern matches nowhere, given what
    followed the piece in the input. *)
Lemma split_from_pieces (n : nat) :
  ∀ s acc,
    length s ≤ n →
    (∀ a b, reverse acc = a ++ b → b ≠ [] → sep_match (b ++ s) = None) →
    Forall (λ piece,
              ∃ s', ∀ a b, piece = a ++ b → b ≠ [] →
                           sep_match (b ++ s') = None)
           (split_from acc s).
Proof.
  induction n as [|n IH]; intros s acc Hn Hacc.
  { destruct s; [|simpl in Hn; lia].
    rewrite split_from_nil. repeat constructor. by exists []. }
  destruct s as [|c r].
  { rewrite split_from_nil. repeat constructor. by exists []. }
  destruct (sep_match (c :: r)) as [rest|] eqn:Hsep.
  - rewrite (split_from_match _ _ _ _ Hsep). constructor.
    + by exists (c :: r).
    + apply IH.
      * apply sep_match_length in Hsep. simpl in *. lia.
      * intros a b Hab Hb. rewrite reverse_nil in Hab.
        symmetry in Hab. by apply app_eq_nil in Hab as [_ ->].
  - rewrite (split_from_skip _ _ _ Hsep). apply IH.
    + simpl in Hn. lia.
    + intros a b Hab Hb. rewrite reverse_cons in Hab.
      symmetry in Hab.
      apply app_snoc_suffix in Hab as (b0 & -> & Hrev); [|done].
      rewrite <- app_assoc. simpl.
      destruct b0 as [|y b0]; [done|].
      by apply (Hacc a (y :: b0)).
Qed.

Lemma trim_decompose (s : jsstring) : ∃ w1 w2, s = w1 ++ trim s ++ w2.
Proof.
  unfold trim.
  pose proof (take_drop_while is_space s) as Hs.
  set (u := drop_while is_space s) in *.
  pose proof (take_drop_while is_space (reverse u)) as Hu.
  set (v := drop_while is_space (reverse u)) in *.
  apply (f_equal reverse) in Hu.
  rewrite reverse_app, reverse_involutive in Hu.
  exists (take_while is_space s), (reverse (take_while is_space (reverse u))).
  by rewrite Hu.
Qed.

(** Where a text that does not end in white space holds a boundary, the
    pattern matches, whatever follows the text. *)
Lemma boundary_match (t : jsstring) :
  has_boundary t = true → starts_clean (reverse t) = true →
  ∃ a b, t = a ++ b ∧ b ≠ [] ∧ ∀ s, sep_match (b ++ s) ≠ None.
Proof.
  induction t as [|c r IH]; [done|]. intros Hb Hend.
  simpl in Hb. apply orb_true_iff in Hb as [Hhere|Hlater].
  - apply andb_true_iff in Hhere as [Hc Hlf].
    exists [], (c :: r). split; [done|]. split; [done|]. intros s.
    cbn [app sep_match]. rewrite Hc.
    pose proof (ends_clean_suffix (c :: r) [] (c :: r) Hend eq_refl
                  ltac:(done)) as Hall.
    assert (all_space r = false) as Hr.
    { unfold all_space in *. simpl in Hall.
      by rewrite (is_lf_space _ Hc) in Hall. }
    destruct (split_at_first_clean r Hr) as (w & y & v & -> & Hw & Hy).
    rewrite take_while_app_clean in Hlf by done.
    rewrite <- app_assoc.
    pose proof (ws_star_run w ((y :: v) ++ s) Hw) as Hrun.
    destruct (ws_star_then nl_plus _); [done|].
    rewrite Hrun in Hlf; [done|]. simpl. by rewrite Hy.
  - destruct r as [|c' r']; [done|].
    destruct IH as (a & b & Hab & Hne & Hm); [done| |].
    { rewrite reverse_cons in Hend.
      destruct (reverse (c' :: r')) as [|y rr] eqn:Hrev; [|done].
      apply (f_equal reverse) in Hrev.
      by rewrite reverse_involutive in Hrev. }
    exists (c :: a), b. rewrite Hab. done.
Qed.

(** Every paragraph text is a chunk. *)
Lemma split_texts_chunks (input t : jsstring) :
  t ∈ filter (λ p, p ≠ []) (trim <$> split_paragraphs input) →
  is_chunk t = true.
Proof.
  intros [Hne Ht]%list_elem_of_filter.
  apply list_elem_of_fmap in Ht as (piece & -> & Hpiece).
  destruct (trim_ends piece Hne) as [Hstart Hend].
  unfold is_chunk. rewrite Hstart, Hend. simpl.
  apply negb_true_iff.
  destruct (has_boundary (trim piece)) eqn:Hb; [|done]. exfalso.
  pose proof (split_from_pieces (length input) input [] (le_n _)) as Hall.
  ospecialize (Hall _).
  { intros a b Hab Hbne. rewrite reverse_nil in Hab. symmetry in Hab.
    by apply app_eq_nil in Hab as [_ ->]. }
  rewrite Forall_forall in Hall.
  destruct (Hall piece Hpiece) as (s' & Hno).
  destruct (boundary_match _ Hb Hend) as (a & b & Hab & Hbne & Hm).
  destruct (trim_decompose piece) as (w1 & w2 & Hdec).
  apply (Hm (w2 ++ s')). rewrite app_assoc.
  apply (Hno (w1 ++ a)).
  - rewrite Hdec at 1. rewrite Hab. by rewrite <- !app_assoc.
  - by destruct b.
Qed.

Lemma join_join_chunks (c : jsstring) (cs : list jsstring) :
  join [LF; LF] (c :: cs) = join_chunks c ((λ c', ([LF; LF], c')) <$> cs).
Proof.
  revert c. induction cs as [|c' cs IH]; intros c; [done|].
  cbn [join fmap list_fmap join_chunks]. by rewrite <- IH.
Qed.

(** Joining chunks with a blank line and splitting again gives the chunks. *)
Lemma split_join_chunks (cs : list jsstring) :
  Forall (λ c, is_chunk c = true) cs →
  filter (λ p, p ≠ []) (trim <$> split_paragraphs (join [LF; LF] cs)) = cs.
Proof.
  intros Hcs. destruct Hcs as [|c cs Hc Hcs].
  { by apply (texts_all_blank []). }
  rewrite join_join_chunks.
  pose proof (texts_input [] c ((λ c', ([LF; LF], c')) <$> cs) []
                eq_refl eq_refl Hc) as Htexts.
  rewrite app_nil_r in Htexts. simpl in Htexts. rewrite Htexts.
  - f_equal. rewrite <- list_fmap_compose. apply list_fmap_id.
  - apply Forall_fmap. eapply Forall_impl; [exact Hcs|].
    intros c' Hc'. simpl. done.
Qed.

Lemma parseTextToParagraphs_texts es input k :
  text <$> parseTextToParagraphs es input k
  = filter (λ p, p ≠ []) (trim <$> split_paragraphs input).
Proof.
  unfold parseTextToParagraphs.
  rewrite (fmap_imap_pointwise _ _ (λ chunk, chunk)) by done.
  apply list_fmap_id.
Qed.

Lemma parseTextToParagraphs_rejoin es es' input k k' :
  text <$> parseTextToParagraphs es'
             (join [LF; LF] (text <$> parseTextToParagraphs es input k)) k'
  = text <$> parseTextToParagraphs es input k.
Proof.
  rewrite !parseTextToParagraphs_texts. apply split_join_chunks.
  apply Forall_forall. intros t Ht. by eapply split_texts_chunks.
Qed.

(** X1: whatever the input, no paragraph the Splitter returns holds a
    paragraph boundary: each text is a chunk, and splitting the text of a
    paragraph again gives that one paragraph with the same text. *)
Theorem parseTextToParagraphs_no_boundary (es es' : nat → Entropy)
    (input : jsstring) (k k' : nat) (p : Paragraph) :
  p ∈ parseTextToParagraphs es input k →
  is_chunk (text p) = true
  ∧ has_boundary (text p) = false
  ∧ text <$> parseTextToParagraphs es' (text p) k' = [text p].
Proof.
  intros Hp.
  assert (is_chunk (text p) = true) as Hchunk.
  { apply (split_texts_chunks input).
    rewrite <- (parseTextToParagraphs_texts es input k).
    apply list_elem_of_fmap. by exists p. }
  split; [done|]. split.
  - unfold is_chunk in Hchunk. rewrite !andb_true_iff in Hchunk.
    apply negb_true_iff, Hchunk.
  - rewrite parseTextToParagraphs_texts.
    apply (split_join_chunks [text p]). by constructor.
Qed.

Lemma parseTextToParagraphs_no_boundary_witness :
  has_boundary (lit "B") = false
  ∧ text <$> parseTextToParagraphs sample_entropy (lit "B") 1 = [lit "B"].
Proof.
  destruct (parseTextToParagraphs_no_boundary sample_entropy sample_entropy
              (lit "A" ++ [LF; LF] ++ lit "B") 0 1
              {| id := draft_para_id 0 1 (sample_entropy 1);
                 text := lit "B";
                 sourceDraftIndex := Some 0;
                 sourceParaIndex := Some 1;
                 originalId := Some (draft_para_id 0 1 (sample_entropy 1)) |})
    as (_ & Hb & Hsplit).
  { vm_compute. apply elem_of_cons. right. apply elem_of_cons. by left. }
  exact (conj Hb Hsplit).
Defined.

(** X2: when every text of the final manuscript is a chunk, splitting the
    exported text gives back the texts of the manuscript, in order. *)
Theorem exportText_split_back (es : nat → Entropy) (k : nat)
    (fp : list Paragraph) :
  Forall (λ p, is_chunk (text p) = true) fp →
  text <$> parseTextToParagraphs es (exportText fp) k = text <$> fp.
Proof.
  intros Hfp. rewrite parseTextToParagraphs_texts. unfold exportText.
  apply split_join_chunks. by apply Forall_fmap.
Qed.

Lemma exportText_split_back_witness :
  text <$> parseTextToParagraphs sample_entropy (exportText sample_final) 0
  = text <$> sample_final.
Proof.
  apply (exportText_split_back sample_entropy 0 sample_final).
  repeat constructor.
Defined.

(** ** The editor of a draft column *)

Lemma drop_while_nil (p : N → bool) (s : jsstring) :
  drop_while p s = [] → forallb p s = true.
Proof.
  induction s as [|c r IH]; [done|]. simpl.
  destruct (p c) eqn:Hc; [|done]. intros Hr. by rewrite IH.
Qed.

Lemma trim_nil_all_space (s : jsstring) : trim s = [] → all_space s = true.
Proof.
  unfold trim. intros Ht.
  apply (f_equal reverse) in Ht. rewrite reverse_involutive in Ht.
  change (reverse []) with (@nil N) in Ht.
  apply drop_while_nil in Ht.
  assert (drop_while is_space s = []) as Hd.
  { pose proof (drop_while_clean_or_empty s) as Hclean.
    destruct (drop_while is_space s) as [|c r] eqn:Hs; [done|].
    simpl in Hclean.
    apply (all_space_reverse (reverse (c :: r))) in Ht.
    rewrite reverse_involutive in Ht.
    apply all_space_cons in Ht as [Hc _]. by rewrite Hc in Hclean. }
  by apply drop_while_nil.
Qed.

Lemma js_get_updateDraftContent es idx input st j :
  js_get (drafts (updateDraftContent es idx input st)) j
  = if decide (j = idx)
    then Some (with_paragraphs (js_get (drafts st) idx)
                 (parseTextToParagraphs es input idx))
    else js_get (drafts st) j.
Proof. unfold updateDraftContent. simpl. apply js_get_js_set. Qed.

(** X3: opening the editor of a draft whose paragraph texts are chunks (as
    all texts the Splitter returns are) and finishing without an edit leaves
    the draft with the same paragraph texts in the same order, the same
    draft id and titles; the other slots and the final manuscript are
    untouched. *)
Theorem handleFinishInput_unedited (es : nat → Entropy) (index : nat)
    (draft : ManuscriptDraft) (st : AppState) :
  js_get (drafts st) index = Some draft →
  Forall (λ p, is_chunk (text p) = true) (paragraphs draft) →
  let st' := handleFinishInput es index (handleStartInput draft) st in
  (∃ draft',
     js_get (drafts st') index = Some draft'
     ∧ text <$> paragraphs draft' = text <$> paragraphs draft
     ∧ draftId draft' = draftId draft
     ∧ title draft' = title draft
     ∧ customTitle draft' = customTitle draft)
  ∧ (∀ j, j ≠ index → js_get (drafts st') j = js_get (drafts st) j)
  ∧ finalParagraphs st' = finalParagraphs st
  ∧ dismissedParagraphIds st' = dismissedParagraphIds st.
Proof.
  intros Hdraft Hchunks st'. subst st'. unfold handleFinishInput.
  assert (text <$> parseTextToParagraphs es (handleStartInput draft) index
          = text <$> paragraphs draft) as Hsame.
  { rewrite parseTextToParagraphs_texts. unfold handleStartInput.
    apply split_join_chunks. by apply Forall_fmap. }
  destruct (decide (trim (handleStartInput draft) ≠ [])) as [Hne|Hblank].
  - split; [|split; [|done]].
    + eexists. rewrite js_get_updateDraftContent, decide_True by done.
      split; [done|]. rewrite Hdraft. by simpl.
    + intros j Hj. by rewrite js_get_updateDraftContent, decide_False.
  - split; [|done]. exists draft. split; [done|].
    split; [|done]. rewrite <- Hsame, parseTextToParagraphs_texts.
    apply dec_stable in Hblank.
    by rewrite texts_all_blank by by apply trim_nil_all_space.
Qed.

Lemma handleFinishInput_unedited_witness :
  ∃ draft',
    js_get (drafts (handleFinishInput sample_entropy 0
                      (handleStartInput sample_draft) sample_state)) 0
    = Some draft'
    ∧ text <$> paragraphs draft' = [lit "one"; lit "uno"].
Proof.
  destruct (handleFinishInput_unedited sample_entropy 0 sample_draft
              sample_state) as [(draft' & Hget & Htexts & _) _].
  - reflexivity.
  - repeat constructor.
  - exists draft'. exact (conj Hget Htexts).
Defined.



(** ** Editing the final manuscript *)

Lemma filter_all {A} (P : A → Prop) `{!∀ x, Decision (P x)} (l : list A) :
  (∀ x, x ∈ l → P x) → filter P l = l.
Proof.
  induction l as [|x l IH]; [done|]. intros Hall.
  rewrite filter_cons_True by (apply Hall; by left).
  rewrite IH; [done|]. intros y Hy. apply Hall. by right.
Qed.

Lemma reflectedIds_originalIds (fp fp' : list Paragraph) :
  originalId <$> fp = originalId <$> fp' → reflectedIds fp = reflectedIds fp'.
Proof. unfold reflectedIds. by intros ->. Qed.

Lemma reflectedIds_perm (fp fp' : list Paragraph) :
  fp ≡ₚ fp' → reflectedIds fp = reflectedIds fp'.
Proof.
  intros Hperm. apply set_eq. intros s. rewrite !elem_of_reflectedIds.
  by setoid_rewrite Hperm.
Qed.

(** X5: dismissing is a toggle on one id: after it the id is dismissed
    exactly when it was not before, every other id keeps its status, and
    toggling the same id twice gives the set back. *)
Theorem toggleDismissParagraph_flips (targetId : jsstring)
    (prev : gset jsstring) :
  (targetId ∈ toggleDismissParagraph targetId prev ↔ targetId ∉ prev)
  ∧ (∀ other, other ≠ targetId →
       other ∈ toggleDismissParagraph targetId prev ↔ other ∈ prev)
  ∧ toggleDismissParagraph targetId (toggleDismissParagraph targetId prev)
    = prev.
Proof.
  unfold toggleDismissParagraph.
  destruct (decide (targetId ∈ prev)) as [Hin|Hout].
  - assert (targetId ∉ prev ∖ {[targetId]}) as Hgone.
    { rewrite elem_of_difference, elem_of_singleton. by intros [_ []]. }
    split; [done|]. split.
    + intros other Hne. rewrite elem_of_difference, elem_of_singleton.
      split; [by intros []|done].
    + rewrite decide_False by done. apply set_eq. intros x.
      rewrite elem_of_union, elem_of_difference, !elem_of_singleton.
      split; [by intros [[]| ->]|].
      intros Hx. destruct (decide (x = targetId)); [by right|by left].
  - assert (targetId ∈ prev ∪ {[targetId]}) as Hthere.
    { rewrite elem_of_union, elem_of_singleton. by right. }
    split; [done|]. split.
    + intros other Hne. rewrite elem_of_union, elem_of_singleton.
      split; [by intros [|]|by left].
    + rewrite decide_True by done. apply set_eq. intros x.
      rewrite elem_of_difference, elem_of_union, !elem_of_singleton.
      split; [by intros [[| ->] ?]|].
      intros Hx. split; [by left|]. by intros ->.
Qed.

(** X6: removing the entry that [addParagraphToFinal] has just inserted
    gives the manuscript back, wherever it was inserted, provided no older
    entry carries the id minted for it. *)
Theorem removeParagraphFromFinal_undoes_add (e : Entropy) (p : Paragraph)
    (atIndex : option nat) (prev : list Paragraph) :
  (∀ q, q ∈ prev → id q ≠ final_id e) →
  removeParagraphFromFinal (final_id e) (addParagraphToFinal e p atIndex prev)
  = prev.
Proof.
  intros Hfresh. unfold removeParagraphFromFinal, addParagraphToFinal.
  assert (∀ l : list Paragraph, (∀ q, q ∈ l → q ∈ prev) →
               filter (λ q, id q ≠ final_id e) l = l) as Hkeep.
  { intros l Hl. apply filter_all. intros q Hq. by apply Hfresh, Hl. }
  destruct atIndex as [i|].
  - unfold splice_in. rewrite filter_app, filter_cons_False by (by intros []).
    rewrite !Hkeep; [apply take_drop| |].
    + intros q Hq. rewrite <- (take_drop i prev). apply elem_of_app. by right.
    + intros q Hq. rewrite <- (take_drop i prev). apply elem_of_app. by left.
  - rewrite filter_app, filter_cons_False by (by intros []).
    rewrite Hkeep by done. apply app_nil_r.
Qed.

Lemma removeParagraphFromFinal_undoes_add_witness :
  removeParagraphFromFinal (final_id (sample_entropy 0))
    (addParagraphToFinal (sample_entropy 0) empty_origin_source (Some 1)
       sample_final)
  = sample_final.
Proof.
  apply (removeParagraphFromFinal_undoes_add (sample_entropy 0)
           empty_origin_source (Some 1) sample_final).
  intros q Hq. unfold sample_final in Hq.
  rewrite !elem_of_cons, elem_of_nil in Hq.
  destruct Hq as [->|[->|[->|[]]]]; by vm_compute.
Defined.

Lemma updateFinalParagraphText_fmap {B} (g : Paragraph → B)
    (targetId newText : jsstring) (prev : list Paragraph) :
  (∀ p t, g {| id := id p; text := t;
               sourceDraftIndex := sourceDraftIndex p;
               sourceParaIndex := sourceParaIndex p;
               originalId := originalId p |} = g p) →
  g <$> updateFinalParagraphText targetId newText prev = g <$> prev.
Proof.
  intros Hg. unfold updateFinalParagraphText. rewrite <- list_fmap_compose.
  apply list_fmap_ext. intros _ p _. simpl.
  destruct (decide (id p = targetId)); [apply Hg|done].
Qed.

(** X7: editing the text of an entry changes texts only: ids, order, origin
    and source tags stay, and so does the reflected set; every entry with
    the given id gets the new text and the other entries keep theirs. *)
Theorem updateFinalParagraphText_texts_only (targetId newText : jsstring)
    (prev : list Paragraph) :
  let next := updateFinalParagraphText targetId newText prev in
  id <$> next = id <$> prev
  ∧ originalId <$> next = originalId <$> prev
  ∧ sourceDraftIndex <$> next = sourceDraftIndex <$> prev
  ∧ reflectedIds next = reflectedIds prev
  ∧ text <$> next
    = (λ p, if decide (id p = targetId) then newText else text p) <$> prev.
Proof.
  intros next. subst next.
  split; [by apply updateFinalParagraphText_fmap|].
  split; [by apply updateFinalParagraphText_fmap|].
  split; [by apply updateFinalParagraphText_fmap|].
  split.
  { apply reflectedIds_originalIds. by apply updateFinalParagraphText_fmap. }
  unfold updateFinalParagraphText. rewrite <- list_fmap_compose.
  apply list_fmap_ext. intros _ p _. simpl.
  by destruct (decide (id p = targetId)).
Qed.

(** X8: a move whose source index is inside the manuscript reorders it:
    the result holds the same entries, each as often as before, whatever the
    target index is; the reflected set is the same. *)
Theorem moveParagraphInFinal_permutes (dragIndex hoverIndex : nat)
    (prev : list Paragraph) :
  dragIndex < length prev →
  ∃ next,
    moveParagraphInFinal dragIndex hoverIndex prev = Reordered next
    ∧ next ≡ₚ prev
    ∧ length next = length prev
    ∧ reflectedIds next = reflectedIds prev.
Proof.
  intros Hin. destruct (lookup_lt_is_Some_2 prev dragIndex Hin) as [x Hx].
  unfold moveParagraphInFinal. rewrite Hx. eexists. split; [done|].
  assert (splice_in hoverIndex x (delete dragIndex prev) ≡ₚ prev) as Hperm.
  { unfold splice_in. rewrite <- Permutation_middle, take_drop.
    symmetry. by apply delete_Permutation. }
  split; [done|]. split; [by rewrite Hperm|]. by apply reflectedIds_perm.
Qed.

Lemma moveParagraphInFinal_permutes_witness :
  ∃ next,
    moveParagraphInFinal 0 7 sample_final = Reordered next
    ∧ next ≡ₚ sample_final.
Proof.
  destruct (moveParagraphInFinal_permutes 0 7 sample_final)
    as (next & Hmove & Hperm & _).
  - vm_compute. lia.
  - exists next. exact (conj Hmove Hperm).
Defined.

(** ** Drops on the final column *)

Lemma moved_before_middle (a b : list Paragraph) (x : Paragraph) (f : nat) :
  moved_before f (length a) x (a ++ x :: b)
  = if decide (length a < f)
    then (a ++ take (f - length a - 1) b) ++ x :: drop (f - length a - 1) b
    else take f a ++ x :: drop f a ++ b.
Proof.
  unfold moved_before. destruct (decide (length a < f)) as [Hlt|Hge].
  - rewrite take_app, drop_app.
    rewrite take_ge, drop_ge by lia.
    remember (f - length a - 1) as n eqn:Hn.
    replace (f - length a) with (S n) by lia. simpl.
    by rewrite delete_middle.
  - rewrite take_app, drop_app.
    replace (f - length a) with 0 by lia. simpl. rewrite app_nil_r.
    replace (length a - f) with (length (drop f a))
      by (rewrite length_drop; lia).
    by rewrite delete_middle.
Qed.

(** X9: dropping a manuscript entry dragged from position [src] on the
    upper or lower half of the entry at [dropIndex] puts it just before
    what stood at [dropIndex], respectively [dropIndex + 1], and keeps the
    order of all other entries; this includes the two drops next to the
    dragged entry itself, which change nothing. *)
Theorem handleDrop_reorder_places (e_img e_final : Entropy)
    (position : DropPosition) (dropIndex src : nat) (x : Paragraph)
    (prev : list Paragraph) :
  prev !! src = Some x →
  handleDrop e_img e_final [] (Some (ReorderParagraph src)) position
    dropIndex prev
  = Reordered
      (moved_before
         (match position with Bottom => dropIndex + 1 | _ => dropIndex end)
         src x prev).
Proof.
  intros Hx. unfold handleDrop.
  set (f := match position with Bottom => dropIndex + 1 | _ => dropIndex end).
  clearbody f.
  pose proof (lookup_lt_Some _ _ _ Hx) as Hlen.
  rewrite <- (take_drop_middle prev src x Hx).
  set (a := take src prev). set (b := drop (S src) prev).
  assert (length a = src) as Ha.
  { subst a. rewrite length_take. lia. }
  clearbody a b. clear Hx Hlen. subst src. rewrite moved_before_middle.
  destruct (decide (length a ≠ f ∧ length a + 1 ≠ f)) as [[Hne Hne']|Hnear].
  - unfold moveParagraphInFinal.
    rewrite list_lookup_middle, delete_middle by done.
    unfold splice_in. f_equal.
    destruct (decide (length a < f)) as [Hlt|Hge].
    + rewrite take_app, drop_app. rewrite take_ge, drop_ge by lia.
      by replace (f - 1 - length a) with (f - length a - 1) by lia.
    + rewrite take_app, drop_app.
      replace (f - length a) with 0 by lia. simpl.
      by rewrite app_nil_r.
  - f_equal. destruct (decide (length a < f)) as [Hlt|Hge].
    + assert (f = length a + 1) as -> by (apply dec_stable; intros ?; lia).
      replace (length a + 1 - length a - 1) with 0 by lia. simpl.
      by rewrite app_nil_r.
    + assert (f = length a) as -> by (apply dec_stable; intros ?; lia).
      by rewrite take_ge, drop_ge by lia.
Qed.

Lemma handleDrop_reorder_places_witness :
  handleDrop (sample_entropy 0) (sample_entropy 1) []
    (Some (ReorderParagraph 0)) Bottom 2 sample_final
  = Reordered (moved_before 3 0 (mkParagraph (lit "final-1-0.1") (lit "one")
                                   (Some 0) (Some 0)
                                   (Some (lit "draft-0-0-1-0.1")))
                 sample_final).
Proof.
  apply (handleDrop_reorder_places (sample_entropy 0) (sample_entropy 1)
           Bottom 2 0 _ sample_final).
  reflexivity.
Defined.

(** ** Images in the final column *)

Lemma startsWith_app (l s : jsstring) : startsWith (l ++ s) l = true.
Proof.
  induction l as [|c l IH]; [by destruct s|]. simpl.
  by rewrite N.eqb_refl, IH.
Qed.

Lemma startsWith_inv (s l : jsstring) :
  startsWith s l = true → s = l ++ drop (length l) s.
Proof.
  revert s. induction l as [|c l IH]; intros s; [done|].
  destruct s as [|d s]; [done|]. simpl.
  intros [Hd Hs]%andb_true_iff. apply N.eqb_eq in Hd as ->.
  f_equal. by apply IH.
Qed.

Lemma literal_then_app {B} (l : jsstring) (k : jsstring → option B)
    (s : jsstring) :
  literal_then l k (l ++ s) = k s.
Proof.
  unfold literal_then. by rewrite startsWith_app, drop_app_length.
Qed.

Lemma literal_then_sound {B} (l : jsstring) (k : jsstring → option B)
    (s : jsstring) (b : B) :
  literal_then l k s = Some b → ∃ s', s = l ++ s' ∧ k s' = Some b.
Proof.
  unfold literal_then. destruct (startsWith s l) eqn:Hs; [|done].
  intros Hk. exists (drop (length l) s). split; [|done].
  by apply startsWith_inv.
Qed.

Lemma lazy_then_sound {B} (k : jsstring → option B) (s m : jsstring) (b : B) :
  lazy_then k s = Some (m, b) → ∃ s', s = m ++ s' ∧ k s' = Some b.
Proof.
  revert m. induction s as [|c r IH]; intros m; simpl.
  - destruct (k []) eqn:Hk; [|done]. intros [= <- <-]. by exists [].
  - destruct (k (c :: r)) eqn:Hk.
    { intros [= <- <-]. by exists (c :: r). }
    destruct (lazy_then k r) as [[m' b']|] eqn:Hr; [|done].
    intros [= <- <-]. destruct (IH m' eq_refl) as (s' & -> & Hs').
    by exists s'.
Qed.

Lemma lazy_then_complete {B} (k : jsstring → option B) (m s' : jsstring) :
  is_Some (k s') → is_Some (lazy_then k (m ++ s')).
Proof.
  intros [b Hb]. induction m as [|c m IH]; simpl.
  - destruct s'; simpl; by rewrite Hb.
  - destruct (k (c :: m ++ s')); [done|].
    destruct IH as [[m' b'] ->]. done.
Qed.

(** The lazy piece takes all of [m] when the rest of the pattern matches
    at no position inside [m]. *)
Lemma lazy_then_skip {B} (k : jsstring → option B) (m s' : jsstring) :
  (∀ m1 c m2, m = m1 ++ c :: m2 → k (c :: m2 ++ s') = None) →
  lazy_then k (m ++ s')
  = match lazy_then k s' with
    | Some (m', b) => Some (m ++ m', b)
    | None => None
    end.
Proof.
  induction m as [|c m IH]; intros Hno.
  - simpl. by destruct (lazy_then k s') as [[m' b]|].
  - simpl. rewrite (Hno [] c m eq_refl).
    rewrite IH; [by destruct (lazy_then k s') as [[m' b]|]|].
    intros m1 d m2 ->. by apply (Hno (c :: m1) d m2).
Qed.

Lemma lazy_then_now {B} (k : jsstring → option B) (s : jsstring) (b : B) :
  k s = Some b → lazy_then k s = Some ([], b).
Proof. intros Hk. destruct s; simpl; by rewrite Hk. Qed.

Lemma trim_clean (s : jsstring) :
  starts_clean s = true → starts_clean (reverse s) = true → trim s = s.
Proof.
  intros Hstart Hend. unfold trim.
  rewrite <- (app_nil_r s) at 1. rewrite drop_while_clean by done.
  rewrite app_nil_r.
  rewrite <- (app_nil_r (reverse s)). rewrite drop_while_clean by done.
  by rewrite app_nil_r, reverse_involutive.
Qed.

(** X10: when [getImageData] finds an image in a text, the trimmed text is
    exactly the markdown image built from what it returns: an exclamation
    mark, the alternative text in brackets, the source in parentheses, and
    the source is a data URL of an image holding the base64 marker. *)
Theorem getImageData_sound (input : jsstring) (d : ImageData) :
  getImageData input = Some d →
  trim input = lit "![" ++ alt d ++ lit "](" ++ src d ++ lit ")"
  ∧ ∃ subtype payload,
      src d = lit "data:image/" ++ subtype ++ lit ";base64," ++ payload.
Proof.
  unfold getImageData. intros Hd.
  apply literal_then_sound in Hd as (s1 & -> & Hd).
  match type of Hd with
  | match ?m with _ => _ end = _ => destruct m as [[m1 [x [y u]]]|] eqn:Hm
  end; [|done].
  injection Hd as <-. simpl.
  apply lazy_then_sound in Hm as (s2 & -> & Hm).
  apply literal_then_sound in Hm as (s3 & -> & Hm).
  apply literal_then_sound in Hm as (s4 & -> & Hm).
  apply lazy_then_sound in Hm as (s5 & -> & Hm).
  apply literal_then_sound in Hm as (s6 & -> & Hm).
  apply lazy_then_sound in Hm as (s7 & -> & Hm).
  apply literal_then_sound in Hm as (s8 & -> & Hm).
  destruct s8; [|done]. split; [|by eauto].
  by rewrite <- !(assoc_L (++)).
Qed.

Lemma getImageData_sound_witness :
  trim (lit " ![a.png](data:image/png;base64,AA==) ")
  = lit "![" ++ lit "a.png" ++ lit "](" ++ lit "data:image/png;base64,AA=="
    ++ lit ")".
Proof.
  apply (getImageData_sound (lit " ![a.png](data:image/png;base64,AA==) ")
           {| alt := lit "a.png"; src := lit "data:image/png;base64,AA==" |}).
  reflexivity.
Defined.

(** X11: the entry [handleImageFiles] inserts for an image file is shown as
    that image: when the name of the file holds no closing bracket and the
    reader delivers a base64 data URL of an image, [getImageData] of the
    inserted text returns the file name as alternative text and the data
    URL as source. *)
Theorem getImageData_of_inserted_image (e_img e_final : Entropy)
    (files : list File) (file : File) (atIndex : nat)
    (prev : list Paragraph) (subtype payload : jsstring) :
  files !! 0 = Some file →
  startsWith (type file) (lit "image/") = true →
  dataURL file
  = Some (lit "data:image/" ++ subtype ++ lit ";base64," ++ payload) →
  93%N ∉ name file →
  ∃ entry,
    handleImageFiles e_img e_final files atIndex prev
      !! (atIndex `min` length prev) = Some entry
    ∧ length (handleImageFiles e_img e_final files atIndex prev)
      = S (length prev)
    ∧ getImageData (text entry)
      = Some {| alt := name file;
                src := lit "data:image/" ++ subtype ++ lit ";base64,"
                       ++ payload |}.
Proof.
  intros Hfile Htype Hurl Hname. unfold handleImageFiles.
  rewrite Hfile, Htype, Hurl. unfold addParagraphToFinal.
  eexists. split; [apply splice_in_lookup|].
  split; [apply splice_in_length|]. cbn [text].
  unfold getImageData. rewrite trim_clean; [| done |].
  2:{ by rewrite !(assoc_L (++)), reverse_app. }
  rewrite literal_then_app.
  set (k4 := literal_then (lit ")") at_end).
  set (k3 := literal_then (lit ";base64,") (lazy_then k4)).
  set (k1 := literal_then (lit "](")
               (literal_then (lit "data:image/") (lazy_then k3))).
  assert (is_Some (lazy_then k3
                     (subtype ++ lit ";base64," ++ payload ++ lit ")")))
    as [[x [y u]] Hx].
  { apply lazy_then_complete. subst k3. rewrite literal_then_app.
    apply lazy_then_complete. subst k4. by exists (). }
  assert (x ++ lit ";base64," ++ y
          = subtype ++ lit ";base64," ++ payload) as Hsrc.
  { pose proof Hx as Hm.
    apply lazy_then_sound in Hm as (s5 & Hall & Hm). subst k3.
    apply literal_then_sound in Hm as (s6 & -> & Hm).
    apply lazy_then_sound in Hm as (s7 & -> & Hm). subst k4.
    apply literal_then_sound in Hm as (s8 & -> & Hm).
    destruct s8; [|done]. rewrite app_nil_r in Hall.
    rewrite !(assoc_L (++)) in Hall. apply (inj (.++ lit ")")) in Hall.
    by rewrite !(assoc_L (++)). }
  rewrite lazy_then_skip.
  - rewrite (lazy_then_now _ _ (x, (y, u))).
    + by rewrite app_nil_r, Hsrc.
    + subst k1. rewrite literal_then_app, <- !(assoc_L (++)).
      by rewrite literal_then_app.
  - intros m1 c m2 Hsplit. subst k1. unfold literal_then.
    change (lit "](") with [93%N; 40%N]. cbn [startsWith].
    destruct (c =? 93)%N eqn:Hc; [|done].
    apply N.eqb_eq in Hc as ->. destruct Hname. rewrite Hsplit.
    apply elem_of_app. right. by left.
Qed.

Lemma getImageData_of_inserted_image_witness :
  ∃ entry,
    handleImageFiles (sample_entropy 0) (sample_entropy 1)
      [ {| name := lit "a.png"; type := lit "image/png";
           fileText := Throw TypeError;
           dataURL := Some (lit "data:image/png;base64,AA==") |} ]
      1 sample_final !! 1 = Some entry
    ∧ getImageData (text entry)
      = Some {| alt := lit "a.png";
                src := lit "data:image/png;base64,AA==" |}.
Proof.
  destruct (getImageData_of_inserted_image (sample_entropy 0)
              (sample_entropy 1)
              [ {| name := lit "a.png"; type := lit "image/png";
                   fileText := Throw TypeError;
                   dataURL := Some (lit "data:image/png;base64,AA==") |} ]
              {| name := lit "a.png"; type := lit "image/png";
                 fileText := Throw TypeError;
                 dataURL := Some (lit "data:image/png;base64,AA==") |}
              1 sample_final (lit "png") (lit "AA=="))
    as (entry & Hentry & _ & Himage).
  - reflexivity.
  - reflexivity.
  - reflexivity.
  - vm_compute. intros Hin.
    repeat (apply elem_of_cons in Hin as [Hin|Hin]; [discriminate Hin|]).
    by apply elem_of_nil in Hin.
  - exists entry. exact (conj Hentry Himage).
Defined.

(** ** Removing a paragraph from a draft *)

Lemma filter_swap {A} (P Q : A → Prop) `{!∀ x, Decision (P x)}
    `{!∀ x, Decision (Q x)} (l : list A) :
  filter P (filter Q l) = filter Q (filter P l).
Proof.
  induction l as [|x l IH]; [done|].
  destruct (decide (P x)) as [HP|HP]; destruct (decide (Q x)) as [HQ|HQ].
  - rewrite (filter_cons_True Q x l), (filter_cons_True P x l) by done.
    rewrite (filter_cons_True P x (filter Q l)) by done.
    rewrite (filter_cons_True Q x (filter P l)) by done.
    by rewrite IH.
  - rewrite (filter_cons_False Q x l), (filter_cons_True P x l) by done.
    rewrite (filter_cons_False Q x (filter P l)) by done. by rewrite IH.
  - rewrite (filter_cons_True Q x l), (filter_cons_False P x l) by done.
    rewrite (filter_cons_False P x (filter Q l)) by done. by rewrite IH.
  - rewrite (filter_cons_False Q x l), (filter_cons_False P x l) by done.
    by rewrite IH.
Qed.

Lemma js_get_removeParagraphFromDraft k paraId st j :
  js_get (drafts (removeParagraphFromDraft k paraId st)) j
  = match js_get (drafts st) j with
    | Some draft =>
        if decide (j = k)
        then Some (with_paragraphs (Some draft)
                     (filter (λ p, id p ≠ paraId) (paragraphs draft)))
        else Some draft
    | None => None
    end.
Proof.
  unfold removeParagraphFromDraft, js_get. simpl. rewrite list_lookup_imap.
  by destruct (drafts st !! j) as [[draft|]|].
Qed.

(** X12: removing a paragraph from a draft changes that draft only: the
    final manuscript, with any copy of the paragraph in it, stays as it is,
    and so do the other drafts and the titles of the draft; afterwards
    add-all of the draft appends what it would have appended before, less
    the removed paragraph. *)
Theorem removeParagraphFromDraft_then_addAll (es es' : nat → Entropy)
    (k : nat) (paraId : jsstring) (st : AppState) (draft : ManuscriptDraft) :
  js_get (drafts st) k = Some draft →
  let st' := removeParagraphFromDraft k paraId st in
  finalParagraphs st' = finalParagraphs st
  ∧ (∀ j, j ≠ k → js_get (drafts st') j = js_get (drafts st) j)
  ∧ (∃ draft',
       js_get (drafts st') k = Some draft'
       ∧ draftId draft' = draftId draft
       ∧ title draft' = title draft
       ∧ customTitle draft' = customTitle draft
       ∧ ∀ p, p ∈ paragraphs draft' ↔ p ∈ paragraphs draft ∧ id p ≠ paraId)
  ∧ ∃ toAdd st1 st2,
      addAllFromDraft es k st = Ok st1
      ∧ finalParagraphs st1 = finalParagraphs st ++ final_copies es toAdd
      ∧ addAllFromDraft es' k st' = Ok st2
      ∧ finalParagraphs st2
        = finalParagraphs st
          ++ final_copies es' (filter (λ p, id p ≠ paraId) toAdd).
Proof.
  intros Hdraft st'. subst st'. split; [done|]. split; [|split].
  - intros j Hj. rewrite js_get_removeParagraphFromDraft.
    destruct (js_get (drafts st) j); [|done]. by rewrite decide_False.
  - eexists. rewrite js_get_removeParagraphFromDraft, Hdraft.
    rewrite decide_True by done. split; [done|]. simpl.
    do 3 (split; [done|]). intros p. rewrite list_elem_of_filter. tauto.
  - unfold addAllFromDraft, addAllFromDraft_queued.
    rewrite js_get_removeParagraphFromDraft, Hdraft.
    rewrite decide_True by done. simpl.
    eexists _, _, _. split; [done|]. split; [done|]. split; [done|].
    simpl. unfold final_copies. by rewrite filter_swap.
Qed.

Lemma removeParagraphFromDraft_then_addAll_witness :
  ∃ st2,
    addAllFromDraft sample_entropy 0
      (removeParagraphFromDraft 0 (lit "draft-0-1-1-0.7") sample_state)
    = Ok st2
    ∧ finalParagraphs st2 = sample_final.
Proof.
  destruct (removeParagraphFromDraft_then_addAll sample_entropy sample_entropy
              0 (lit "draft-0-1-1-0.7") sample_state sample_draft)
    as (_ & _ & _ & toAdd & st1 & st2 & Hadd1 & Hfinal1 & Hadd2 & _).
  - reflexivity.
  - exists st2. split; [exact Hadd2|].
    vm_compute in Hadd2. injection Hadd2 as <-. reflexivity.
Defined.

(** X13: removing from a draft an id that no paragraph of the draft
    carries leaves the whole state as it is, and so does a removal at an
    index past the end of the drafts. *)
Theorem removeParagraphFromDraft_absent (k : nat) (paraId : jsstring)
    (st : AppState) :
  length (drafts st) ≤ k
  ∨ (∃ draft, js_get (drafts st) k = Some draft
              ∧ ∀ p, p ∈ paragraphs draft → id p ≠ paraId) →
  removeParagraphFromDraft k paraId st = st.
Proof.
  intros Habsent. destruct st as [ds fp dis].
  unfold removeParagraphFromDraft. simpl in *. f_equal.
  apply list_eq. intros j. rewrite list_lookup_imap.
  destruct (ds !! j) as [[draft|]|] eqn:Hj; [|done..]. simpl.
  destruct (decide (j = k)) as [->|]; [|done].
  destruct Habsent as [Hlen|(draft' & Hdraft & Hids)].
  { apply lookup_lt_Some in Hj. lia. }
  unfold js_get in Hdraft. rewrite Hj in Hdraft. injection Hdraft as <-.
  rewrite filter_all by done. by destruct draft.
Qed.

Lemma removeParagraphFromDraft_absent_witness :
  removeParagraphFromDraft 0 (lit "draft-9-9-9-0.9") sample_state
  = sample_state.
Proof.
  apply (removeParagraphFromDraft_absent 0 (lit "draft-9-9-9-0.9")
           sample_state).
  right. exists sample_draft. split; [reflexivity|].
  intros p Hp. unfold sample_draft in Hp. cbn [paragraphs] in Hp.
  rewrite !elem_of_cons, elem_of_nil in Hp.
  destruct Hp as [->|[->|[]]]; by vm_compute.
Defined.

(** ** Clicks on a draft paragraph *)

Lemma reflectedIds_addParagraphToFinal e p atIndex prev :
  or_else (originalId p) (id p) ≠ [] →
  reflectedIds (addParagraphToFinal e p atIndex prev)
  = reflectedIds prev ∪ {[or_else (originalId p) (id p)]}.
Proof.
  intros Hne. apply set_eq. intros s.
  rewrite elem_of_union, elem_of_singleton, !elem_of_reflectedIds. split.
  - intros (q & Hq & Ho & Hs).
    apply elem_of_addParagraphToFinal in Hq as [->|Hq].
    + right. by injection Ho.
    + left. by exists q.
  - intros [(q & Hq & Ho & Hs)| ->].
    + exists q. split; [|done]. apply elem_of_addParagraphToFinal. by right.
    + eexists. split; [apply elem_of_addParagraphToFinal; by left|]. done.
Qed.

(** X14: a dismissed paragraph cannot be added by a click, which leaves
    the manuscript as it is, but add-all of its draft does not look at the
    dismissed set: it appends a copy of the paragraph when its id is not
    reflected, and leaves it dismissed. *)
Theorem dismissed_click_and_addAll (e : Entropy) (es : nat → Entropy)
    (k : nat) (st : AppState) (draft : ManuscriptDraft) (p : Paragraph) :
  js_get (drafts st) k = Some draft →
  p ∈ paragraphs draft →
  id p ∈ dismissedParagraphIds st →
  id p ∉ reflectedIds (finalParagraphs st) →
  draftParagraphClick e (dismissedParagraphIds st) p (finalParagraphs st)
  = finalParagraphs st
  ∧ ∃ st1 copy,
      addAllFromDraft es k st = Ok st1
      ∧ copy ∈ finalParagraphs st1
      ∧ originalId copy = Some (id p)
      ∧ text copy = text p
      ∧ id p ∈ dismissedParagraphIds st1.
Proof.
  intros Hdraft Hp Hdismissed Hfresh. split.
  - unfold draftParagraphClick. by rewrite decide_True.
  - unfold addAllFromDraft, addAllFromDraft_queued. rewrite Hdraft. simpl.
    assert (p ∈ filter (λ p0, id p0 ∉ reflectedIds (finalParagraphs st))
                  (paragraphs draft)) as Hadd.
    { by apply list_elem_of_filter. }
    apply list_elem_of_lookup in Hadd as [i Hi].
    eexists _, (mkParagraph _ _ _ _ _). split; [done|]. simpl.
    split; [|done]. apply elem_of_app. right.
    apply list_elem_of_lookup. exists i.
    rewrite list_lookup_imap, Hi. reflexivity.
Qed.

Lemma dismissed_click_and_addAll_witness :
  draftParagraphClick (sample_entropy 0) {[lit "draft-0-1-1-0.7"]}
    (mkParagraph (lit "draft-0-1-1-0.7") (lit "uno") (Some 0) (Some 1)
       (Some (lit "draft-0-1-1-0.7")))
    sample_final
  = sample_final.
Proof.
  destruct (dismissed_click_and_addAll (sample_entropy 0) sample_entropy 0
              {| drafts := [Some sample_draft];
                 finalParagraphs := sample_final;
                 dismissedParagraphIds := {[lit "draft-0-1-1-0.7"]} |}
              sample_draft
              (mkParagraph (lit "draft-0-1-1-0.7") (lit "uno") (Some 0)
                 (Some 1) (Some (lit "draft-0-1-1-0.7"))))
    as [Hclick _].
  - reflexivity.
  - apply elem_of_cons. right. apply elem_of_cons. by left.
  - cbn [dismissedParagraphIds id]. by apply elem_of_singleton.
  - by vm_compute.
  - exact Hclick.
Defined.

(** X15: for a paragraph that is not dismissed and whose origin (its
    [originalId], or its id when that is missing or empty) is not the empty
    string, a click adds a copy even when the paragraph is already
    reflected, so two clicks leave two copies in the manuscript; the
    reflected set holds the origin after the first click and is not changed
    by the second. *)
Theorem draftParagraphClick_twice (e1 e2 : Entropy)
    (dismissedIds : gset jsstring) (p : Paragraph) (prev : list Paragraph) :
  id p ∉ dismissedIds →
  or_else (originalId p) (id p) ≠ [] →
  let once := draftParagraphClick e1 dismissedIds p prev in
  let twice := draftParagraphClick e2 dismissedIds p once in
  length twice = length prev + 2
  ∧ or_else (originalId p) (id p) ∈ reflectedIds once
  ∧ reflectedIds twice = reflectedIds once
  ∧ text <$> twice = (text <$> prev) ++ [text p; text p].
Proof.
  intros Hshown Hne once twice. subst once twice.
  unfold draftParagraphClick. rewrite !decide_False by done.
  rewrite !reflectedIds_addParagraphToFinal by done.
  split; [|split; [|split]].
  - unfold addParagraphToFinal. rewrite !length_app. simpl. lia.
  - apply elem_of_union. right. by apply elem_of_singleton.
  - apply set_eq. intros s. rewrite !elem_of_union, !elem_of_singleton. tauto.
  - unfold addParagraphToFinal. rewrite !fmap_app, <- (assoc_L (++)). done.
Qed.

Lemma draftParagraphClick_twice_witness :
  length (draftParagraphClick (sample_entropy 1) ∅ empty_origin_source
            (draftParagraphClick (sample_entropy 0) ∅ empty_origin_source
               sample_final))
  = length sample_final + 2.
Proof.
  apply (draftParagraphClick_twice (sample_entropy 0) (sample_entropy 1) ∅
           empty_origin_source sample_final).
  - apply not_elem_of_empty.
  - by vm_compute.
Defined.

(** ** The AI gateway and the polish button *)

Lemma or_else_result (a : option jsstring) (b : jsstring) :
  (∃ s, a = Some s ∧ s ≠ [] ∧ or_else a b = s) ∨ or_else a b = b.
Proof.
  destruct a as [[|c s]|]; simpl; [by right| |by right].
  left. by exists (c :: s).
Qed.

(** X16: once the client is constructed, each call of the gateway returns
    a text that is decided by the answer of the endpoint to the one request
    of the call (for polish the flash model, the instruction followed by
    the input, temperature 0.7; for synthesize the pro model and the prompt
    built from the first three drafts): the text of the answer when it is
    not empty; otherwise the input for polish, and for synthesize the first
    fixed message when the answer has no text or an empty one and the
    second when the endpoint fails.  So polish returns an empty text for an
    empty input only, and synthesize never returns an empty text. *)
Theorem gateway_result (ai : GoogleGenAI) (input : jsstring)
    (inputs : list jsstring) :
  newGoogleGenAI ai = Ok () →
  (∀ r, generateContent ai (polish_request input) = Ok (Some r) → r ≠ [] →
        polishManuscript ai input = Ok r)
  ∧ (generateContent ai (polish_request input) = Ok None
     ∨ generateContent ai (polish_request input) = Ok (Some [])
     ∨ (∃ e, generateContent ai (polish_request input) = Throw e) →
     polishManuscript ai input = Ok input)
  ∧ (∀ r, generateContent ai (synthesis_request inputs) = Ok (Some r) →
          r ≠ [] → suggestSynthesis ai inputs = Ok r)
  ∧ (generateContent ai (synthesis_request inputs) = Ok None
     ∨ generateContent ai (synthesis_request inputs) = Ok (Some []) →
     suggestSynthesis ai inputs = Ok synthesis_empty)
  ∧ ((∃ e, generateContent ai (synthesis_request inputs) = Throw e) →
     suggestSynthesis ai inputs = Ok synthesis_failed)
  ∧ (∃ r, polishManuscript ai input = Ok r ∧ (r = [] → input = []))
  ∧ (∃ r, suggestSynthesis ai inputs = Ok r ∧ r ≠ [])
  ∧ synthesis_empty ≠ synthesis_failed.
Proof.
  intros Hnew.
  assert (polishManuscript ai input
          = Ok match generateContent ai (polish_request input) with
               | Ok response => or_else response input
               | Throw _ => input
               end) as Hpolish.
  { unfold polishManuscript. rewrite Hnew.
    fold (polish_request input).
    by destruct (generateContent ai (polish_request input)). }
  assert (suggestSynthesis ai inputs
          = Ok match generateContent ai (synthesis_request inputs) with
               | Ok response => or_else response synthesis_empty
               | Throw _ => synthesis_failed
               end) as Hsynthesis.
  { unfold suggestSynthesis. rewrite Hnew. cbv zeta.
    fold (synthesis_request inputs).
    by destruct (generateContent ai (synthesis_request inputs)). }
  rewrite Hpolish, Hsynthesis.
  split; [|split; [|split; [|split; [|split; [|split; [|split]]]]]].
  - intros r -> Hr. by destruct r.
  - by intros [->|[->|[e ->]]].
  - intros r -> Hr. by destruct r.
  - by intros [->| ->].
  - by intros [e ->].
  - eexists. split; [done|].
    destruct (generateContent ai (polish_request input)) as [response|e];
      [|done].
    by destruct (or_else_result response input) as [(s & _ & Hs & ->)| ->].
  - eexists. split; [done|].
    destruct (generateContent ai (synthesis_request inputs))
      as [response|e]; [|done].
    by destruct (or_else_result response synthesis_empty)
      as [(s & _ & Hs & ->)| ->].
  - done.
Qed.

Lemma gateway_result_witness :
  polishManuscript
    {| newGoogleGenAI := Ok ();
       generateContent :=
         λ req, if decide (contents req = polish_instruction ++ lit "a")
                then Ok (Some (lit "A")) else Throw TypeError |}
    (lit "a") = Ok (lit "A").
Proof.
  destruct (gateway_result
              {| newGoogleGenAI := Ok ();
                 generateContent :=
                   λ req, if decide (contents req
                                     = polish_instruction ++ lit "a")
                          then Ok (Some (lit "A")) else Throw TypeError |}
              (lit "a") [lit "a"; lit "b"]) as [Hanswer _].
  - reflexivity.
  - apply Hanswer; [|done]. cbn [generateContent polish_request contents].
    by rewrite decide_True.
Defined.

Lemma handlePolish_origin ai nows fp fp' :
  handlePolish ai nows fp = Ok fp' →
  Forall (λ p, originalId p = None) fp'.
Proof.
  unfold handlePolish. destruct fp as [|p0 fp].
  { intros [= <-]. constructor. }
  destruct (polishManuscript _ _) as [polished|e]; simpl; [|done].
  intros [= <-]. apply Forall_forall. intros p Hp.
  apply list_elem_of_lookup in Hp as [i Hi].
  rewrite list_lookup_imap in Hi.
  destruct (_ !! i); [|done]. by injection Hi as <-.
Qed.

Lemma reflectedIds_no_origin (fp : list Paragraph) :
  Forall (λ p, originalId p = None) fp → reflectedIds fp = ∅.
Proof.
  intros Hfp. apply set_eq. intros s. rewrite elem_of_reflectedIds. split.
  - intros (p & Hp & Ho & _).
    rewrite Forall_forall in Hfp. by rewrite (Hfp p Hp) in Ho.
  - intros []%not_elem_of_empty.
Qed.

(** X17: polish forgets where the manuscript came from: when it returns,
    nothing is reflected any more, so that add-all of an existing draft
    then appends a copy of every paragraph of the draft, including those
    whose text was in the manuscript before the polish. *)
Theorem handlePolish_forgets_origin (ai : GoogleGenAI) (nows : nat → N)
    (es : nat → Entropy) (k : nat) (st : AppState) (draft : ManuscriptDraft)
    (polished : list Paragraph) :
  handlePolish ai nows (finalParagraphs st) = Ok polished →
  js_get (drafts st) k = Some draft →
  reflectedIds polished = ∅
  ∧ ∃ st1,
      addAllFromDraft es k
        {| drafts := drafts st;
           finalParagraphs := polished;
           dismissedParagraphIds := dismissedParagraphIds st |} = Ok st1
      ∧ finalParagraphs st1 = polished ++ final_copies es (paragraphs draft).
Proof.
  intros Hpolish Hdraft.
  assert (reflectedIds polished = ∅) as Hnone.
  { eapply reflectedIds_no_origin, handlePolish_origin; done. }
  split; [done|]. unfold addAllFromDraft, addAllFromDraft_queued. simpl. rewrite Hdraft, Hnone.
  eexists. split; [done|]. simpl. unfold final_copies.
  rewrite filter_all; [done|]. intros p _. apply not_elem_of_empty.
Qed.

Lemma handlePolish_forgets_origin_witness :
  ∃ polished,
    handlePolish
      {| newGoogleGenAI := Ok (); generateContent := λ _, Ok None |}
      (λ _, 5%N) (finalParagraphs sample_state) = Ok polished
    ∧ reflectedIds polished = ∅.
Proof.
  eexists. split; [reflexivity|].
  apply (handlePolish_forgets_origin
           {| newGoogleGenAI := Ok (); generateContent := λ _, Ok None |}
           (λ _, 5%N) sample_entropy 0 sample_state sample_draft).
  - reflexivity.
  - reflexivity.
Defined.

(** X18: when the client is constructed and the endpoint fails or answers
    with no text, polish keeps the texts of a manuscript whose texts are
    chunks, in order, and only replaces the entries by new ones. *)
Theorem handlePolish_endpoint_silent (ai : GoogleGenAI) (nows : nat → N)
    (fp : list Paragraph) :
  newGoogleGenAI ai = Ok () →
  (∀ req r, generateContent ai req = Ok (Some r) → r = []) →
  Forall (λ p, is_chunk (text p) = true) fp →
  ∃ polished,
    handlePolish ai nows fp = Ok polished
    ∧ text <$> polished = text <$> fp
    ∧ ∀ i p, polished !! i = Some p →
             id p = lit "polished-" ++ show (N.of_nat i) ++ lit "-"
                    ++ show (nows i).
Proof.
  intros Hnew Hsilent Hchunks. unfold handlePolish.
  destruct fp as [|p0 fp]; [by exists []|]. cbv beta iota zeta.
  set (fullText := join [LF; LF] (text <$> p0 :: fp)).
  assert (polishManuscript ai fullText = Ok fullText) as ->.
  { unfold polishManuscript. rewrite Hnew. simpl.
    match goal with
    | |- context [generateContent ai ?req] =>
        destruct (generateContent ai req) as [[r|]|e] eqn:Hgen
    end; simpl; [|done..].
    by rewrite (Hsilent _ _ Hgen). }
  eexists. split; [reflexivity|]. split.
  - rewrite (fmap_imap_pointwise _ _ (λ chunk, chunk)) by done.
    rewrite list_fmap_id. subst fullText.
    apply (split_join_chunks (text <$> p0 :: fp)). by apply Forall_fmap.
  - intros i p Hp. rewrite list_lookup_imap in Hp.
    destruct (_ !! i); [|done]. by injection Hp as <-.
Qed.

Lemma handlePolish_endpoint_silent_witness :
  ∃ polished,
    handlePolish
      {| newGoogleGenAI := Ok ();
         generateContent := λ _, Throw TypeError |}
      (λ _, 5%N) sample_final = Ok polished
    ∧ text <$> polished = text <$> sample_final.
Proof.
  destruct (handlePolish_endpoint_silent
              {| newGoogleGenAI := Ok ();
                 generateContent := λ _, Throw TypeError |}
              (λ _, 5%N) sample_final)
    as (polished & Hpolish & Htexts & _).
  - reflexivity.
  - intros req r Hgen. discriminate Hgen.
  - repeat constructor.
  - exists polished. exact (conj Hpolish Htexts).
Defined.

(** ** Reading the stored state and importing files *)

(** X19: a stored blob that parses, but not to an object ([null], a number,
    a string, an array), gives the three default values: the property read
    on [null] throws and is caught, and the others have no such property. *)
Theorem init_state_not_an_object (JSON_parse : jsstring → Res JSON)
    (s : jsstring) (v : JSON) :
  JSON_parse s = Ok v →
  (∀ fields, v ≠ JObj fields) →
  init_drafts JSON_parse (Some s) = Ok (Fallback default_drafts)
  ∧ init_finalParagraphs JSON_parse (Some s) = Ok (Fallback [])
  ∧ init_dismissedParagraphIds JSON_parse (Some s) = Ok (Fallback ∅).
Proof.
  intros Hparse Hv.
  unfold init_drafts, init_finalParagraphs, init_dismissedParagraphIds.
  destruct (truthy s); [|done]. rewrite Hparse.
  destruct v as [| | | | |fields]; try done. by destruct (Hv fields).
Qed.

Lemma init_state_not_an_object_witness :
  init_drafts sample_parse (Some (lit "null")) = Ok (Fallback default_drafts)
  ∧ init_finalParagraphs sample_parse (Some (lit "null")) = Ok (Fallback [])
  ∧ init_dismissedParagraphIds sample_parse (Some (lit "null"))
    = Ok (Fallback ∅).
Proof.
  apply (init_state_not_an_object sample_parse (lit "null") JNull).
  - reflexivity.
  - discriminate.
Defined.

Lemma foldl_ext_in {A B} (f g : A → B → A) (l : list B) (a : A) :
  (∀ x b, b ∈ l → f x b = g x b) → foldl f a l = foldl g a l.
Proof.
  revert a. induction l as [|b l IH]; intros a Hfg; [done|]. simpl.
  rewrite (Hfg a b) by by left. apply IH.
  intros x c Hc. apply Hfg. by right.
Qed.

Lemma upload_first_three es (sortedFiles : list File) acc :
  foldl (upload_slot es sortedFiles) acc
    (seq 0 (length sortedFiles `min` 3))
  = foldl (upload_slot es (take 3 sortedFiles)) acc
      (seq 0 (length (take 3 sortedFiles))).
Proof.
  rewrite length_take, (Nat.min_comm 3).
  apply foldl_ext_in. intros x i [_ Hi]%elem_of_seq.
  unfold upload_slot. rewrite lookup_take, decide_True by lia. done.
Qed.

Lemma upload_throw es (sortedFiles : list File) (e : exn) (l : list nat) :
  foldl (upload_slot es sortedFiles) (Throw e) l = Throw e.
Proof. induction l as [|i l IH]; [done|]. simpl. apply IH. Qed.

Lemma upload_read_failure es (sortedFiles : list File) (i : nat)
    (file : File) (e : exn) (l : list nat) :
  sortedFiles !! i = Some file → fileText file = Throw e → i ∈ l →
  ∀ acc, ∃ e', foldl (upload_slot es sortedFiles) acc l = Throw e'.
Proof.
  intros Hfile Hread. induction l as [|j l IH]; intros Hin acc.
  { by apply elem_of_nil in Hin. }
  simpl. apply elem_of_cons in Hin as [<-|Hin]; [|by apply IH].
  destruct acc as [newDrafts|e0].
  - exists e. unfold upload_slot at 2. simpl. rewrite Hfile, Hread. simpl.
    apply upload_throw.
  - exists e0. apply upload_throw.
Qed.

(** X20: the import reads the first three files in the order of their
    names and nothing else: two selections whose sorted lists agree on the
    first three files give the same outcome, whatever the other files are
    and whether they can be read. *)
Theorem handleGlobalFileUpload_first_three
    (localeCompare : jsstring → jsstring → Z) (es : nat → nat → Entropy)
    (files files' : list File) (st : AppState) :
  files ≠ [] → files' ≠ [] →
  take 3 (sort_files localeCompare files)
  = take 3 (sort_files localeCompare files') →
  handleGlobalFileUpload localeCompare es (Some files) st
  = handleGlobalFileUpload localeCompare es (Some files') st.
Proof.
  intros Hne Hne' Htake. unfold handleGlobalFileUpload.
  destruct files as [|f0 files]; [done|].
  destruct files' as [|f0' files']; [done|].
  cbv zeta. rewrite !upload_first_three. by rewrite Htake.
Qed.

Lemma handleGlobalFileUpload_first_three_witness :
  handleGlobalFileUpload code_unit_compare (λ _, sample_entropy)
    (Some sample_files) sample_state
  = handleGlobalFileUpload code_unit_compare (λ _, sample_entropy)
      (Some [ text_file "c.md" "third"; text_file "a.txt" "first";
              {| name := lit "z.bin"; type := lit "application/octet-stream";
                 fileText := Throw TypeError; dataURL := None |};
              text_file "b.txt" "second" ])
      sample_state.
Proof.
  apply (handleGlobalFileUpload_first_three code_unit_compare
           (λ _, sample_entropy) sample_files); [done|done|].
  reflexivity.
Defined.

(** X21: the import is all or nothing: when one of the first three files in
    the order of their names cannot be read, the handler fails before it
    stores anything, so no slot is replaced, not even those of the files
    read before. *)
Theorem handleGlobalFileUpload_read_failure
    (localeCompare : jsstring → jsstring → Z) (es : nat → nat → Entropy)
    (files : list File) (st : AppState) (i : nat) (file : File) (e : exn) :
  sort_files localeCompare files !! i = Some file →
  i < 3 →
  fileText file = Throw e →
  ∃ e', handleGlobalFileUpload localeCompare es (Some files) st = Throw e'.
Proof.
  intros Hfile Hi Hread. unfold handleGlobalFileUpload.
  destruct files as [|f0 files]; [done|]. cbv zeta.
  destruct (upload_read_failure es
              (sort_files localeCompare (f0 :: files)) i file e
              (seq 0 (length (sort_files localeCompare (f0 :: files)) `min` 3))
              Hfile Hread) with (acc := Ok (drafts st)) as [e' He'].
  - apply elem_of_seq. pose proof (lookup_lt_Some _ _ _ Hfile). lia.
  - exists e'. by rewrite He'.
Qed.

Lemma handleGlobalFileUpload_read_failure_witness :
  ∃ e',
    handleGlobalFileUpload code_unit_compare (λ _, sample_entropy)
      (Some [ text_file "a.txt" "first";
              {| name := lit "b.txt"; type := lit "text/plain";
                 fileText := Throw TypeError; dataURL := None |} ])
      sample_state
    = Throw e'.
Proof.
  apply (handleGlobalFileUpload_read_failure code_unit_compare
           (λ _, sample_entropy) _ sample_state 1
           {| name := lit "b.txt"; type := lit "text/plain";
              fileText := Throw TypeError; dataURL := None |} TypeError).
  - reflexivity.
  - lia.
  - reflexivity.
Defined.

(** ** Tags of the draft paragraphs *)

Lemma paragraphs_with_paragraphs d ps : paragraphs (with_paragraphs d ps) = ps.
Proof. by destruct d. Qed.

Lemma drafts_tagged_set (es : nat → Entropy) (input : jsstring) (i : nat)
    (ds : list (option ManuscriptDraft)) :
  drafts_tagged ds →
  drafts_tagged
    (js_set i (with_paragraphs (js_get ds i)
                 (parseTextToParagraphs es input i)) ds).
Proof.
  intros Hds k draft p. rewrite js_get_js_set.
  destruct (decide (k = i)) as [->|]; [|apply Hds].
  intros [= <-]. rewrite paragraphs_with_paragraphs.
  intros [j Hj]%list_elem_of_lookup.
  by apply parseTextToParagraphs_lookup in Hj as (chunk & _ & ->).
Qed.

Lemma drafts_tagged_upload es (sortedFiles : list File) (l : list nat) :
  ∀ acc after,
    (∀ ds, acc = Ok ds → drafts_tagged ds) →
    foldl (upload_slot es sortedFiles) acc l = Ok after →
    drafts_tagged after.
Proof.
  induction l as [|i l IH]; intros acc after Hacc; simpl.
  { apply Hacc. }
  apply IH. intros ds. unfold upload_slot.
  destruct acc as [newDrafts|e]; simpl; [|done].
  destruct (sortedFiles !! i) as [file|]; [|done].
  destruct (fileText file) as [content|e]; simpl; [|done].
  intros [= <-]. by apply drafts_tagged_set, Hacc.
Qed.

(** X22: the drafts keep their tags: in the default drafts, and after each
    of the handlers that write paragraphs into the drafts (replacing the
    content of a slot, the editor, the file of a column, the removal of a
    paragraph, the global import), each paragraph of the draft in slot [k]
    has [k] as its [sourceDraftIndex] and its own id as its [originalId]. *)
Theorem drafts_tagged_invariant :
  drafts_tagged default_drafts
  ∧ ∀ st, drafts_tagged (drafts st) →
      (∀ es idx input,
         drafts_tagged (drafts (updateDraftContent es idx input st)))
      ∧ (∀ es index rawText,
           drafts_tagged (drafts (handleFinishInput es index rawText st)))
      ∧ (∀ es index files,
           drafts_tagged (drafts (handleFileUpload es index files st)))
      ∧ (∀ k paraId,
           drafts_tagged (drafts (removeParagraphFromDraft k paraId st)))
      ∧ (∀ localeCompare es files st',
           handleGlobalFileUpload localeCompare es files st = Ok st' →
           drafts_tagged (drafts st')).
Proof.
  split.
  { intros k draft p Hk Hp.
    destruct k as [|[|[|k]]]; [injection Hk as <-..|done];
      by apply elem_of_nil in Hp. }
  intros st Hst.
  assert (∀ es idx input,
            drafts_tagged (drafts (updateDraftContent es idx input st)))
    as Hupdate.
  { intros es idx input. by apply drafts_tagged_set. }
  split; [done|]. split; [|split; [|split]].
  - intros es index rawText. unfold handleFinishInput.
    by destruct (decide (trim rawText ≠ [])).
  - intros es index files. unfold handleFileUpload.
    destruct (files !! 0) as [file|]; [|done].
    by destruct (fileText file).
  - intros k paraId j draft p. rewrite js_get_removeParagraphFromDraft.
    destruct (js_get (drafts st) j) as [d|] eqn:Hd; [|done].
    destruct (decide (j = k)) as [->|]; intros [= <-]; [|by apply Hst].
    simpl. intros [_ Hp]%list_elem_of_filter. by apply (Hst k d).
  - intros localeCompare es files st'. unfold handleGlobalFileUpload.
    destruct files as [[|f0 files]|]; [by intros [= <-]| |by intros [= <-]].
    cbv zeta.
    destruct (foldl _ _ _) as [after|e] eqn:Hfold; [|done].
    intros [= <-]. simpl.
    eapply drafts_tagged_upload; [|exact Hfold]. by intros ds [= <-].
Qed.

(** X23: with tagged drafts, a paragraph of draft [k] that is copied into
    the manuscript, at any position, is reflected from then on when its id
    is not empty, the copy carries the tag [k], and remove-all of draft [k]
    takes the copy out again together with the other entries tagged [k]. *)
Theorem tagged_copy_reflected_and_removable (e : Entropy)
    (atIndex : option nat) (k : nat) (st : AppState)
    (draft : ManuscriptDraft) (p : Paragraph) :
  drafts_tagged (drafts st) →
  js_get (drafts st) k = Some draft →
  p ∈ paragraphs draft →
  id p ≠ [] →
  let st1 :=
    {| drafts := drafts st;
       finalParagraphs := addParagraphToFinal e p atIndex (finalParagraphs st);
       dismissedParagraphIds := dismissedParagraphIds st |} in
  reflectedIds (finalParagraphs st1)
  = reflectedIds (finalParagraphs st) ∪ {[id p]}
  ∧ finalParagraphs (removeAllFromDraft k st1)
    = finalParagraphs (removeAllFromDraft k st).
Proof.
  intros Hst Hdraft Hp Hid st1. subst st1.
  destruct (Hst k draft p Hdraft Hp) as [Hsource Horigin].
  assert (or_else (originalId p) (id p) = id p) as Hor.
  { rewrite Horigin. simpl. by destruct (id p). }
  split.
  - cbn [finalParagraphs].
    rewrite reflectedIds_addParagraphToFinal by by rewrite Hor.
    by rewrite Hor.
  - cbn [removeAllFromDraft finalParagraphs]. unfold addParagraphToFinal.
    assert (∀ tl : list Paragraph,
              filter (λ q, sourceDraftIndex q ≠ Some k)
                ({| id := final_id e; text := text p;
                    sourceDraftIndex := sourceDraftIndex p;
                    sourceParaIndex := sourceParaIndex p;
                    originalId := Some (or_else (originalId p) (id p)) |}
                 :: tl)
              = filter (λ q, sourceDraftIndex q ≠ Some k) tl) as Hdrop.
    { intros tl. by rewrite filter_cons_False by (by intros []). }
    destruct atIndex as [i|].
    + unfold splice_in. rewrite filter_app, Hdrop, <- filter_app.
      by rewrite take_drop.
    + by rewrite filter_app, Hdrop, filter_nil, app_nil_r.
Qed.

Lemma tagged_copy_reflected_and_removable_witness :
  finalParagraphs
    (removeAllFromDraft 0
       {| drafts := drafts sample_state;
          finalParagraphs :=
            addParagraphToFinal (sample_entropy 0)
              (mkParagraph (lit "draft-0-1-1-0.7") (lit "uno") (Some 0)
                 (Some 1) (Some (lit "draft-0-1-1-0.7")))
              (Some 1) (finalParagraphs sample_state);
          dismissedParagraphIds := dismissedParagraphIds sample_state |})
  = finalParagraphs (removeAllFromDraft 0 sample_state).
Proof.
  apply (tagged_copy_reflected_and_removable (sample_entropy 0) (Some 1) 0
           sample_state sample_draft
           (mkParagraph (lit "draft-0-1-1-0.7") (lit "uno") (Some 0)
              (Some 1) (Some (lit "draft-0-1-1-0.7")))).
  - intros j draft p Hj Hp. destruct j as [|j]; [|done].
    injection Hj as <-. unfold sample_draft in Hp. cbn [paragraphs] in Hp.
    rewrite !elem_of_cons, elem_of_nil in Hp.
    by destruct Hp as [->|[->|[]]].
  - reflexivity.
  - apply elem_of_cons. right. apply elem_of_cons. by left.
  - by vm_compute.
Defined.

(** ** Pasting into the editor *)












